(** * Curve topology reconstruction: [FEsort] of TSurf/python/tsurf_geometry.py

    A shallow embedding of the bar-element sorting routine [FEsort] and of the
    per-curve step of its caller [getCGNSsections], followed by the properties
    of the reconstruction: edge conservation, connectivity, termination,
    behaviour on degenerate input, and idempotence on its own output.

    Python lists of point ids are [list Z]; the connectivity handed to
    [FEsort] is a list of such lists.  The arrays [FEsort] returns are
    float64 arrays: the conversion of an id to float64 on assignment is
    part of the model.  Uncaught Python exceptions are an explicit outcome,
    and the outer [while keep_searching] loop carries a step bound which is
    shown never to be reached.

    The second part covers the rest of the module: [FEsort_dumb], the class
    [Curve] ([flip], [extract_points]), [merge_surface_sections], the
    loops of [getCGNSsections] and [initialize_curves]. *)

From Stdlib Require Import ZArith Lia.
From stdpp Require Import base numbers list relations strings gmap.

Local Open Scope Z_scope.

(** ** Outcomes of running Python code *)

Inductive exn : Type :=
| IndexError
| ValueError
| OverflowError.

Inductive outcome (A : Type) : Type :=
| Returns (a : A)
| Raises (e : exn)
| OutOfFuel.

Arguments Returns {A} a.
Arguments Raises {A} e.
Arguments OutOfFuel {A}.

Definition obind {A B : Type} (m : outcome A) (k : A → outcome B) : outcome B :=
  match m with
  | Returns a => k a
  | Raises e => Raises e
  | OutOfFuel => OutOfFuel
  end.

#[global] Instance outcome_ret : MRet outcome := @Returns.
#[global] Instance outcome_bind : MBind outcome := λ A B k m, obind m k.

(** ** Python list operations used by the routine *)

Module Py.

(** [l[i]] for a Python integer index: negative indices count from the
    end, anything out of range raises [IndexError]. *)
Definition getitem (l : list Z) (i : Z) : outcome Z :=
  let j := if decide (i < 0) then i + Z.of_nat (length l) else i in
  if decide (j < 0) then Raises IndexError
  else match l !! Z.to_nat j with
       | Some x => Returns x
       | None => Raises IndexError
       end.

(** [l[1:]], [l[:-1]] and [l[::-1]]: slices never raise. *)
Definition slice_from1 (l : list Z) : list Z := tail l.
Definition slice_to_m1 (l : list Z) : list Z := removelast l.
Definition reversed (l : list Z) : list Z := reverse l.

(** [l[i] = x] on a list, for a non-negative index: out of range it raises
    [IndexError]. *)
Definition setitem {A : Type} (l : list A) (i : nat) (x : A) : outcome (list A) :=
  if decide (i < length l)%nat then Returns (<[i := x]> l)
  else Raises IndexError.

End Py.

(** ** The routine *)

(** The body of the [for newElement in newConn] loop: the four tests of the
    [if]/[elif] chain in source order.  [Some c] is the value assigned to
    [newConn[newElemCounter]] before the [break]; [None] means that no test
    fired and the counter is incremented. *)
Definition link_ends (oldElement newElement : list Z) : outcome (option (list Z)) :=
  o0 ← Py.getitem oldElement 0; n0 ← Py.getitem newElement 0;
  if decide (o0 = n0) then
    Returns (Some (Py.reversed oldElement ++ Py.slice_from1 newElement))
  else
  o0 ← Py.getitem oldElement 0; nl ← Py.getitem newElement (-1);
  if decide (o0 = nl) then
    Returns (Some (Py.slice_to_m1 newElement ++ oldElement))
  else
  ol ← Py.getitem oldElement (-1); n0 ← Py.getitem newElement 0;
  if decide (ol = n0) then
    Returns (Some (oldElement ++ Py.slice_from1 newElement))
  else
  ol ← Py.getitem oldElement (-1); nl ← Py.getitem newElement (-1);
  if decide (ol = nl) then
    Returns (Some (Py.slice_to_m1 newElement ++ Py.reversed oldElement))
  else
    Returns None.

(** The [for] loop itself.  [todo] is the part of [newConn] not yet visited
    and [newElemCounter] the position of its first element.  The result is
    [Some newConn'] when [linked_element] was set (with the updated list),
    [None] when the loop ran to its end. *)
Fixpoint for_newElement (oldElement : list Z) (newConn todo : list (list Z))
    (newElemCounter : nat) : outcome (option (list (list Z))) :=
  match todo with
  | [] => Returns None
  | newElement :: todo' =>
      r ← link_ends oldElement newElement;
      match r with
      | Some c =>
          newConn' ← Py.setitem newConn newElemCounter c;
          Returns (Some newConn')
      | None => for_newElement oldElement newConn todo' (S newElemCounter)
      end
  end.

(** [while len(oldConn) > 0]: pops the front of [oldConn], tries to link it,
    and appends it to [newConn] as a new curve otherwise. *)
Fixpoint while_oldConn (oldConn newConn : list (list Z)) (keep_searching : bool)
    : outcome (list (list Z) * bool) :=
  match oldConn with
  | [] => Returns (newConn, keep_searching)
  | oldElement :: oldConn' =>
      r ← for_newElement oldElement newConn newConn 0%nat;
      match r with
      | Some newConn' => while_oldConn oldConn' newConn' true
      | None => while_oldConn oldConn' (newConn ++ [oldElement]) keep_searching
      end
  end.

(** One iteration of the outer loop: [oldConn = newConn[:]], then
    [newConn = [oldConn.pop(0)]], which raises on an empty list. *)
Definition pass (newConn : list (list Z)) : outcome (list (list Z) * bool) :=
  match newConn with
  | [] => Raises IndexError
  | first :: oldConn => while_oldConn oldConn [first] false
  end.

(** [while keep_searching]: the flag is [True] on entry, so the body runs at
    least once. *)
Fixpoint while_keep_searching (fuel : nat) (newConn : list (list Z))
    : outcome (list (list Z)) :=
  match fuel with
  | O => OutOfFuel
  | S fuel' =>
      '(newConn', keep_searching) ← pass newConn;
      if keep_searching : bool then while_keep_searching fuel' newConn'
      else Returns newConn'
  end.

(** *** Conversion back to FE format *)

(** The arrays made by [np.zeros] hold float64 entries, so a point id
    assigned to an entry is converted to a float first.  [float64 x] is
    that conversion for the Python integer [x], the float being given by
    the integer it equals.  An id of at most 53 significant bits is kept
    as it is; a longer one is rounded to 53 significant bits, to the
    nearest float and to the even one on a tie ([2 ^ e] is the distance
    between neighbouring floats at the size of [x]); and an id whose
    rounded value reaches [2 ^ 1024] raises [OverflowError]. *)
Definition float64 (x : Z) : outcome Z :=
  let a := Z.abs x in
  let e := Z.log2 a - 52 in
  if decide (e ≤ 0) then Returns x
  else
    let q := a / 2 ^ e in
    let r := a mod 2 ^ e in
    let q' := if decide (2 ^ e < 2 * r ∨ (2 * r = 2 ^ e ∧ Z.odd q = true))
              then q + 1 else q in
    if decide (2 ^ 1024 ≤ q' * 2 ^ e) then Raises OverflowError
    else Returns (Z.sgn x * (q' * 2 ^ e)).

(** A [2 x n] numpy array, row by row, its entries given by the integers
    they equal.  The arrays [FEsort] makes are float64 arrays: what an
    assignment leaves in an entry is [float64] of the value assigned. *)
Record ndarray2 : Type := Ndarray2 { row0 : list Z; row1 : list Z }.

#[global] Instance ndarray2_eq_dec : EqDecision ndarray2.
Proof. solve_decision. Defined.

(** [np.zeros((2, n))] *)
Definition np_zeros2 (n : Z) : outcome ndarray2 :=
  if decide (n < 0) then Raises ValueError
  else Returns (Ndarray2 (replicate (Z.to_nat n) 0) (replicate (Z.to_nat n) 0)).

(** [row[i] = x] on a row of such an array, for a non-negative index: the
    index is checked, then [x] is converted and written. *)
Definition np_store (row : list Z) (i : nat) (x : Z) : outcome (list Z) :=
  if decide (i < length row)%nat then
    v ← float64 x;
    Returns (<[i := v]> row)
  else Raises IndexError.

(** The body of [for pointID in range(1,len(curve))]. *)
Definition assign_bar (curve : list Z) (FEcurve : ndarray2) (pointID : nat)
    : outcome ndarray2 :=
  prevPoint ← Py.getitem curve (Z.of_nat pointID - 1);
  currPoint ← Py.getitem curve (Z.of_nat pointID);
  r0 ← np_store (row0 FEcurve) (pointID - 1) prevPoint;
  r1 ← np_store (row1 FEcurve) (pointID - 1) currPoint;
  Returns (Ndarray2 r0 r1).

Fixpoint for_pointID (curve : list Z) (FEcurve : ndarray2) (pointIDs : list nat)
    : outcome ndarray2 :=
  match pointIDs with
  | [] => Returns FEcurve
  | pointID :: rest =>
      FEcurve' ← assign_bar curve FEcurve pointID;
      for_pointID curve FEcurve' rest
  end.

(** The list comprehension building [newConnFE]. *)
Fixpoint alloc_FE (newConn : list (list Z)) : outcome (list ndarray2) :=
  match newConn with
  | [] => Returns []
  | curve :: rest =>
      a ← np_zeros2 (Z.of_nat (length curve) - 1);
      as' ← alloc_FE rest;
      Returns (a :: as')
  end.

(** [for curveID in range(len(newConn))] *)
Fixpoint fill_FE (newConn : list (list Z)) (newConnFE : list ndarray2)
    : outcome (list ndarray2) :=
  match newConn, newConnFE with
  | curve :: rest, FEcurve :: restFE =>
      a ← for_pointID curve FEcurve (seq 1 (length curve - 1));
      as' ← fill_FE rest restFE;
      Returns (a :: as')
  | _, _ => Returns []
  end.

(** The sorted curves as point-id lists, before the conversion. *)
Definition FEsort_curves (barsConn : list (list Z)) : outcome (list (list Z)) :=
  while_keep_searching (S (length barsConn)) barsConn.

(** [FEsort].  The Python value returned is [Some] list of arrays; [None]
    stands for Python's [None], which the caller tests for. *)
Definition FEsort_fuel (fuel : nat) (barsConn : list (list Z))
    : outcome (option (list ndarray2)) :=
  newConn ← while_keep_searching fuel barsConn;
  newConnFE ← alloc_FE newConn;
  newConnFE ← fill_FE newConn newConnFE;
  Returns (Some newConnFE).

Definition FEsort (barsConn : list (list Z)) : outcome (option (list ndarray2)) :=
  FEsort_fuel (S (length barsConn)) barsConn.

(** *** The caller *)

(** What [getCGNSsections] stores under ['barsConn'] for one curve: either
    the array built from the sorted connectivity, as nested lists along its
    three axes, or the original slice. *)
Inductive barsConn_entry : Type :=
| SortedConn (sortedConn : list (list (list Z)))
| OriginalConn (slice : list (list Z)).

(** [np.array(sortedConn).T] for a list of [k] arrays of two rows each.
    Arrays that differ in their number of columns cannot be put into one
    array and raise [ValueError]; arrays of [n] columns each give an array
    of shape [(n, 2, k)], whose entry [[i][r][c]] is entry [[r][i]] of
    array [c]. *)
Definition np_array_T (sortedConn : list ndarray2) : outcome (list (list (list Z))) :=
  match sortedConn with
  | [] => Returns []
  | a :: rest =>
      if decide (Forall (λ b, length (row0 b) = length (row0 a)) rest) then
        Returns ((λ i, [(λ b, row0 b !!! i) <$> sortedConn;
                        (λ b, row1 b !!! i) <$> sortedConn])
                   <$> seq 0 (length (row0 a)))
      else Raises ValueError
  end.

(** The body of [for curve in curveNames] from the call of [FEsort] to the
    end of the failure check; the boolean tells whether the
    "could not be sorted" message was printed. *)
Definition curve_section (slice : list (list Z)) : outcome (barsConn_entry * bool) :=
  sortedConn ← FEsort slice;
  match sortedConn with
  | Some c =>
      sortedConn ← np_array_T c;
      Returns (SortedConn sortedConn, false)
  | None => Returns (OriginalConn slice, true)
  end.

(** ** Notions used to state the properties *)

(** The bars of a curve given by its point ids: consecutive pairs. *)
Fixpoint segments (curve : list Z) : list (list Z) :=
  match curve with
  | a :: (b :: _) as rest => [a; b] :: segments rest
  | _ => []
  end.

(** The bars of a [2 x n] connectivity array, column by column
    (what [a.T.tolist()] gives). *)
Definition columns (a : ndarray2) : list (list Z) :=
  zip_with (λ p q, [p; q]) (row0 a) (row1 a).

(** All bars of a list of curves, and of a list of arrays, in order. *)
Definition all_segments (curves : list (list Z)) : list (list Z) :=
  concat (segments <$> curves).

Definition bars (out : list ndarray2) : list (list Z) :=
  concat (columns <$> out).

(** The point ids a connectivity array mentions. *)
Definition points (a : ndarray2) : list Z := row0 a ++ row1 a.

(** A bar without its direction. *)
Definition undirected (e : list Z) : list Z :=
  match e with
  | [a; b] => [Z.min a b; Z.max a b]
  | _ => e
  end.

(** Equality of two collections of bars as multisets of undirected bars. *)
Definition same_bars (E1 E2 : list (list Z)) : Prop :=
  undirected <$> E1 ≡ₚ undirected <$> E2.

(** The number of bars of [E] that touch point [v]. *)
Definition degree (v : Z) (E : list (list Z)) : nat :=
  length (filter (λ e, v ∈ e) E).

(** A bar joins two distinct points. *)
Definition proper_bar (e : list Z) : Prop :=
  match e with
  | [a; b] => a ≠ b
  | _ => False
  end.

(** A list of two-point elements, the format of [barsConn]. *)
Definition bar_list (E : list (list Z)) : Prop :=
  Forall (λ e, length e = 2%nat) E.

(** A valid edge set: bars with distinct end points, no bar twice (in
    either direction), no point on more than two bars. *)
Record valid_edges (E : list (list Z)) : Prop := ValidEdges {
  valid_proper : Forall proper_bar E;
  valid_nodup : NoDup (undirected <$> E);
  valid_degree : Forall (λ v, degree v E ≤ 2)%nat (concat E)
}.

(** Two points are joined by a bar of [E], in either direction. *)
Definition adjacent (E : list (list Z)) (u v : Z) : Prop :=
  [u; v] ∈ E ∨ [v; u] ∈ E.

(** Two points of the graph are connected by a path of bars. *)
Definition connected (E : list (list Z)) (u v : Z) : Prop :=
  u ∈ concat E ∧ rtc (adjacent E) u v.

(** Two points lie on one and the same output curve. *)
Definition same_curve (out : list ndarray2) (u v : Z) : Prop :=
  ∃ a, a ∈ out ∧ u ∈ points a ∧ v ∈ points a.

(** A curve in FE format. *)
Definition to_FE (curve : list Z) : ndarray2 :=
  Ndarray2 (removelast curve) (tail curve).

(** Head and tail of an output curve, and the closure test on them. *)
Definition FE_head (a : ndarray2) : option Z := head (row0 a).
Definition FE_tail (a : ndarray2) : option Z := last (row1 a).
Definition closed (a : ndarray2) : bool :=
  bool_decide (is_Some (FE_head a) ∧ FE_head a = FE_tail a).

(** *** The loops on non-empty curves

    On curves that are not empty no index is out of range, and the loop
    bodies are the following functions; [link_ends_join],
    [for_newElement_absorb] and [while_oldConn_stitch] relate them to the
    embedded code. *)

(** [link_ends] on two non-empty curves. *)
Definition join (o n : list Z) : option (list Z) :=
  if decide (head o = head n) then Some (reverse o ++ tail n)
  else if decide (head o = last n) then Some (removelast n ++ o)
  else if decide (last o = head n) then Some (o ++ tail n)
  else if decide (last o = last n) then Some (removelast n ++ reverse o)
  else None.

(** No end of [o] is an end of [n]. *)
Definition apart (o n : list Z) : Prop :=
  head o ≠ head n ∧ head o ≠ last n ∧ last o ≠ head n ∧ last o ≠ last n.

(** The [for] loop: the first curve of [L] that [o] can be linked to takes
    it in. *)
Fixpoint absorb (o : list Z) (L : list (list Z)) : option (list (list Z)) :=
  match L with
  | [] => None
  | n :: L' =>
      match join o n with
      | Some c => Some (c :: L')
      | None => (n ::.) <$> absorb o L'
      end
  end.

(** The inner [while] loop, with the flag [keep_searching] as [k]. *)
Fixpoint stitch (old new : list (list Z)) (k : bool) : list (list Z) * bool :=
  match old with
  | [] => (new, k)
  | o :: old' =>
      match absorb o new with
      | Some new' => stitch old' new' true
      | None => stitch old' (new ++ [o]) k
      end
  end.

(** No later curve of the list can be linked to an earlier one. *)
Fixpoint settled (L : list (list Z)) : Prop :=
  match L with
  | [] => True
  | p :: L' => Forall (λ q, join q p = None) L' ∧ settled L'
  end.

(** A curve has at least one bar. *)
Definition is_curve (c : list Z) : Prop := (2 ≤ length c)%nat.

(** No two curves of the list have a point in common. *)
Fixpoint separate (L : list (list Z)) : Prop :=
  match L with
  | [] => True
  | p :: L' => Forall (λ q, ∀ v, v ∈ p → v ∉ q) L' ∧ separate L'
  end.

(** How often a bar occurs in a collection, in either direction. *)
Definition occurrences (e : list Z) (B : list (list Z)) : nat :=
  length (filter (λ e', undirected e' = undirected e) B).

(** The points of a curve strictly between its two ends. *)
Definition interior (curve : list Z) : list Z := removelast (tail curve).

(** *** Point ids and float64

    Ids that a float64 entry holds as they are: integers of at most 53
    bits, and [2 ^ 53] itself.  The node numbers of a mesh, which index
    its coordinate array, are of this kind. *)
Definition exact_id (x : Z) : Prop := Z.abs x ≤ 2 ^ 53.

Definition exact_ids (E : list (list Z)) : Prop := Forall (Forall exact_id) E.

(** Ids that have a float64 value at all: those below the midpoint
    between the largest float and [2 ^ 1024]. *)
Definition fits_double (x : Z) : Prop := Z.abs x < 2 ^ 1024 - 2 ^ 970.

(** What is read back from a float64 entry that id [x] was assigned to. *)
Definition stored (x : Z) : Z :=
  match float64 x with
  | Returns y => y
  | _ => x
  end.

(** *** Further notions on the returned arrays *)

(** An array whose bars follow one another without a gap: it has as many
    start points as end points, and each bar starts where the previous one
    ends. *)
Definition gap_free (a : ndarray2) : Prop :=
  length (row0 a) = length (row1 a) ∧ tail (row0 a) = removelast (row1 a).

(** No end of array [b] is an end of array [a]. *)
Definition ends_apart (b a : ndarray2) : Prop :=
  FE_head b ≠ FE_head a ∧ FE_head b ≠ FE_tail a ∧
  FE_tail b ≠ FE_head a ∧ FE_tail b ≠ FE_tail a.

(** ** The other functions of the module

    Besides the exceptions above these can fail with a [TypeError], and [merge_surface_sections] leaves through [quit()]. *)

Inductive error : Type :=
| Exn (e : exn)
| TypeError
| SystemExit.

Inductive result (A : Type) : Type :=
| Ok (a : A)
| Error (e : error)
| Unfinished.

Arguments Ok {A} a.
Arguments Error {A} e.
Arguments Unfinished {A}.

Definition rbind {A B : Type} (m : result A) (k : A → result B) : result B :=
  match m with
  | Ok a => k a
  | Error e => Error e
  | Unfinished => Unfinished
  end.

#[global] Instance result_ret : MRet result := @Ok.
#[global] Instance result_bind : MBind result := λ A B k m, rbind m k.

(** Running code of the first part inside the second. *)
Definition lift {A : Type} (m : outcome A) : result A :=
  match m with
  | Returns a => Ok a
  | Raises e => Error (Exn e)
  | OutOfFuel => Unfinished
  end.

(** [l.pop(i)] for a non-negative index, keeping the list only. *)
Definition list_pop {A : Type} (l : list A) (i : nat) : result (list A) :=
  if decide (i < length l)%nat then Ok (delete i l)
  else Error (Exn IndexError).

(** *** [FEsort_dumb] *)

(** [while end_not_found and len(flatArray) > 0]: the first entry that does
    not occur again further on; [None] when the loop ends with
    [end_not_found] still set. *)
Fixpoint find_end (flatArray : list Z) : option Z :=
  match flatArray with
  | [] => None
  | node_to_check :: flatArray' =>
      if decide (node_to_check ∉ flatArray') then Some node_to_check
      else find_end flatArray'
  end.

(** The body of [if end_node in element]: the new element [[end_node, 0]]
    with its second entry assigned. *)
Definition next_element (end_node : Z) (element : list Z) : result (list Z) :=
  e0 ← lift (Py.getitem element 0);
  if decide (end_node = e0) then
    e1 ← lift (Py.getitem element 1);
    Ok [end_node; e1]
  else
    e1 ← lift (Py.getitem element 1);
    if decide (end_node = e1) then
      e0 ← lift (Py.getitem element 0);
      Ok [end_node; e0]
    else Ok [end_node; 0].

(** [for element in barsConn]: the new element and the position of the
    element it was made from, or [None] when no element holds
    [end_node]. *)
Fixpoint for_element (end_node : Z) (todo : list (list Z)) (elemCounter : nat)
    : result (option (list Z * nat)) :=
  match todo with
  | [] => Ok None
  | element :: todo' =>
      if decide (end_node ∈ element) then
        newElement ← next_element end_node element;
        Ok (Some (newElement, elemCounter))
      else for_element end_node todo' (S elemCounter)
  end.

(** [while (len(barsConn) > 0) and noFail] *)
Fixpoint while_noFail (fuel : nat) (barsConn : list (list Z)) (noFail : bool)
    (end_node : Z) (newConn : list (list Z)) : result (list (list Z) * bool) :=
  match fuel with
  | O => Unfinished
  | S fuel' =>
      if bool_decide (0 < length barsConn)%nat && noFail then
        r ← for_element end_node barsConn 0;
        match r with
        | Some (newElement, elemCounter) =>
            end_node' ← lift (Py.getitem newElement 1);
            barsConn' ← list_pop barsConn elemCounter;
            while_noFail fuel' barsConn' true end_node' (newConn ++ [newElement])
        | None => while_noFail fuel' barsConn false end_node newConn
        end
      else Ok (newConn, noFail)
  end.

(** [FEsort_dumb] on a Python list; [None] is Python's [None].  With no end
    node found the code evaluates [barsConnIn[0,0]], a [TypeError] on a
    list. *)
Definition FEsort_dumb (barsConnIn : list (list Z)) : result (option (list (list Z))) :=
  end_node ← match find_end (concat barsConnIn) with
             | Some node => Ok node
             | None => Error TypeError
             end;
  '(newConn, noFail) ← while_noFail (2 + length barsConnIn) barsConnIn true end_node [];
  if noFail : bool then Ok (Some newConn) else Ok None.

(** *** The class [Curve] *)

(** [a[i]] on a numpy array or a list of any element type, for a Python
    integer index. *)
Definition np_getitem {A : Type} (l : list A) (i : Z) : result A :=
  let j := if decide (i < 0) then i + Z.of_nat (length l) else i in
  if decide (j < 0) then Error (Exn IndexError)
  else match l !! Z.to_nat j with
       | Some x => Ok x
       | None => Error (Exn IndexError)
       end.

(** [a[i] = x] likewise. *)
Definition np_setitem {A : Type} (l : list A) (i : Z) (x : A) : result (list A) :=
  let j := if decide (i < 0) then i + Z.of_nat (length l) else i in
  if decide (j < 0) then Error (Exn IndexError)
  else if decide (Z.to_nat j < length l)%nat then Ok (<[Z.to_nat j := x]> l)
       else Error (Exn IndexError).

(** [self.barsConn] of a [Curve]: a [2 x n] integer array that may be a view of a
    buffer with the two rows in reverse order (what [a[::-1]] gives);
    writing a row through the view writes the buffer, which other holders
    of the array see. *)
Record barsView : Type := BarsView { buffer : ndarray2; rows_reversed : bool }.

(** The array as read through the view. *)
Definition view_read (v : barsView) : ndarray2 :=
  if rows_reversed v then Ndarray2 (row1 (buffer v)) (row0 (buffer v))
  else buffer v.

(** [v[ii]] and [v[ii] = r] for a row index [ii]; a row of another length
    cannot be assigned. *)
Definition view_row (v : barsView) (ii : nat) : result (list Z) :=
  match ii with
  | 0%nat => Ok (row0 (view_read v))
  | 1%nat => Ok (row1 (view_read v))
  | _ => Error (Exn IndexError)
  end.

Definition view_set_row (v : barsView) (ii : nat) (r : list Z) : result barsView :=
  old ← view_row v ii;
  if decide (length r = length old) then
    (* row [ii] of the view is row 0 of the buffer unless exactly one of
       "second row" and "reversed" holds *)
    if xorb (ii =? 0)%nat (rows_reversed v)
    then Ok (BarsView (Ndarray2 r (row1 (buffer v))) (rows_reversed v))
    else Ok (BarsView (Ndarray2 (row0 (buffer v)) r) (rows_reversed v))
  else Error (Exn ValueError).

(** [for ii in range(len(self.barsConn))] of [flip] *)
Fixpoint for_flip_rows (v : barsView) (iis : list nat) : result barsView :=
  match iis with
  | [] => Ok v
  | ii :: rest =>
      r ← view_row v ii;
      v' ← view_set_row v ii (reverse r);
      for_flip_rows v' rest
  end.

(** [Curve.flip]: the rows are swapped by taking a view, then each row is
    reversed in place (numpy copies the reversed row before writing it
    over itself). *)
Definition flip (v : barsView) : result barsView :=
  for_flip_rows (BarsView (buffer v) (negb (rows_reversed v))) (seq 0 2).

Section CurveClass.

Context {point : Type} (origin : point).

(** [self.coor[:, id - 1]]: the column of the point with number [id]. *)
Definition point_at (coor : list point) (id : Z) : result point :=
  np_getitem coor (id - 1).

(** [for ii in range(numElems)] of [extract_points] *)
Fixpoint for_extract (coor : list point) (a : ndarray2) (pts : list point)
    (iis : list nat) : result (list point) :=
  match iis with
  | [] => Ok pts
  | ii :: rest =>
      id ← np_getitem (row0 a) (Z.of_nat ii);
      xyz ← point_at coor id;
      pts' ← np_setitem pts (Z.of_nat ii) xyz;
      for_extract coor a pts' rest
  end.

(** [Curve.extract_points], on the value [a] of [self.barsConn]; [coor] is
    given by its columns and [pts] by its rows. *)
Definition extract_points (coor : list point) (a : ndarray2) : result (list point) :=
  let numElems := length (row0 a) in
  let pts := replicate (numElems + 1) origin in
  pts ← for_extract coor a pts (seq 0 numElems);
  id ← np_getitem (row1 a) (-1);
  xyz ← point_at coor id;
  np_setitem pts (-1) xyz.

End CurveClass.

(** *** Sections of a CGNS file *)

(** A two-dimensional integer array given by its columns; [nrows] is
    [shape[0]], which an array without columns still has. *)
Record array2d : Type := Array2d { nrows : nat; cols : list (list Z) }.

(** Start or stop of a slice [l[s:e]] brought into [0 .. len(l)]. *)
Definition slice_index (n : nat) (i : Z) : nat :=
  Z.to_nat (if decide (i < 0) then Z.max 0 (i + Z.of_nat n) else Z.min i (Z.of_nat n)).

(** [l[s:e]] *)
Definition py_slice {A : Type} (l : list A) (s e : Z) : list A :=
  take (slice_index (length l) e - slice_index (length l) s)
       (drop (slice_index (length l) s) l).

(** [a[:, s:e]] *)
Definition slice_cols (a : array2d) (s e : Z) : array2d :=
  Array2d (nrows a) (py_slice (cols a) s e).

(** [np.hstack([a, b])] on two-dimensional arrays: the row counts have to
    agree. *)
Definition np_hstack (a b : array2d) : result array2d :=
  if decide (nrows a = nrows b) then Ok (Array2d (nrows a) (cols a ++ cols b))
  else Error (Exn ValueError).

(** An entry of the section dictionary: a dictionary with the keys
    ['triaConn'] and ['quadsConn'] for a surface, with the key ['barsConn']
    for a curve. *)
Inductive section : Type :=
| SurfaceSection (triaConn quadsConn : array2d)
| CurveSection (barsConn : barsConn_entry).

(** *** [merge_surface_sections] *)

(** The two messages, as [print] writes them. *)
Definition msg_not_defined (sectionName : string) : string :=
  "ERROR: Surface " +:+ sectionName +:+
  " is not defined. Check surface names in your CGNS file.".

Definition msg_not_surface (sectionName : string) : string :=
  sectionName +:+ " is not a surface section.".

(** [for sectionName in selectedSections], with the lines printed so far
    in [out].  [quit()] ends the run with [SystemExit]. *)
Fixpoint for_sectionName (sectionDict : gmap string section)
    (selectedSections : list string) (triaConn quadsConn : option array2d)
    (out : list string) : list string * result (option array2d * option array2d) :=
  match selectedSections with
  | [] => (out, Ok (triaConn, quadsConn))
  | sectionName :: rest =>
      match sectionDict !! sectionName with
      | None => (out ++ [msg_not_defined sectionName], Error SystemExit)
      | Some (SurfaceSection t q) =>
          match triaConn with
          | None => for_sectionName sectionDict rest (Some t) (Some q) out
          | Some tc =>
              match np_hstack tc t with
              | Ok tc' =>
                  match from_option (λ qc, np_hstack qc q) (Error (Exn ValueError))
                                    quadsConn with
                  | Ok qc' => for_sectionName sectionDict rest (Some tc') (Some qc') out
                  | Error e => (out, Error e)
                  | Unfinished => (out, Unfinished)
                  end
              | Error e => (out, Error e)
              | Unfinished => (out, Unfinished)
              end
          end
      | Some (CurveSection _) =>
          for_sectionName sectionDict rest triaConn quadsConn
            (out ++ [msg_not_surface sectionName])
      end
  end.

Definition merge_surface_sections (sectionDict : gmap string section)
    (selectedSections : list string)
    : list string * result (option array2d * option array2d) :=
  for_sectionName sectionDict selectedSections None None [].

(** *** [getCGNSsections] *)

(** What the Fortran reader leaves behind, names already formatted. *)
Record cgns_data : Type := CgnsData {
  cgns_triaConn : array2d;
  cgns_quadsConn : array2d;
  cgns_barsConn : array2d;
  surfTriaPtr : list Z;
  surfQuadsPtr : list Z;
  curveBarsPtr : list Z;
  surfNames : list string;
  curveNames : list string
}.

(** [for surf in surfNames] *)
Fixpoint for_surf (d : cgns_data) (names : list string) (iSurf : nat)
    (sectionDict : gmap string section) : result (gmap string section) :=
  match names with
  | [] => Ok sectionDict
  | surf :: rest =>
      tS ← np_getitem (surfTriaPtr d) (Z.of_nat iSurf);
      tE ← np_getitem (surfTriaPtr d) (Z.of_nat iSurf + 1);
      qS ← np_getitem (surfQuadsPtr d) (Z.of_nat iSurf);
      qE ← np_getitem (surfQuadsPtr d) (Z.of_nat iSurf + 1);
      let currTriaConn := slice_cols (cgns_triaConn d) (tS - 1) (tE - 1) in
      let currQuadsConn := slice_cols (cgns_quadsConn d) (qS - 1) (qE - 1) in
      for_surf d rest (S iSurf)
        (<[surf := SurfaceSection currTriaConn currQuadsConn]> sectionDict)
  end.

(** [for curve in curveNames]; [printed] lists the curves for which the
    "could not be sorted" message was written. *)
Fixpoint for_curve (d : cgns_data) (names : list string) (iCurve : nat)
    (sectionDict : gmap string section) (printed : list string)
    : result (gmap string section * list string) :=
  match names with
  | [] => Ok (sectionDict, printed)
  | curve :: rest =>
      bS ← np_getitem (curveBarsPtr d) (Z.of_nat iCurve);
      bE ← np_getitem (curveBarsPtr d) (Z.of_nat iCurve + 1);
      '(entry, warned) ← lift (curve_section
                                 (py_slice (cols (cgns_barsConn d)) (bS - 1) (bE - 1)));
      for_curve d rest (S iCurve) (<[curve := CurveSection entry]> sectionDict)
        (if warned : bool then printed ++ [curve] else printed)
  end.

(** [getCGNSsections] after the file has been read: the section
    dictionary (the coordinates are handed on as they are) and the curves
    warned about. *)
Definition getCGNSsections (d : cgns_data) : result (gmap string section * list string) :=
  sectionDict ← for_surf d (surfNames d) 0 ∅;
  for_curve d (curveNames d) 0 sectionDict [].

(** *** [initialize_curves] *)

(** A [Curve] as its constructor builds it. *)
Record curve_obj (C : Type) : Type :=
  CurveObj { curve_coor : C; curve_barsConn : barsConn_entry }.

Arguments CurveObj {C} _ _.
Arguments curve_coor {C} _.
Arguments curve_barsConn {C} _.

(** [for sectionName in sectionDict]: the dictionary assigned to
    [TSurfComponent.Curves]. *)
Definition initialize_curves {C : Type} (coor : C) (sectionDict : gmap string section)
    : gmap string (curve_obj C) :=
  map_fold (λ sectionName sec curveObjDict,
              match sec with
              | CurveSection barsConn =>
                  <[sectionName := CurveObj coor barsConn]> curveObjDict
              | SurfaceSection _ _ => curveObjDict
              end) ∅ sectionDict.

(** *** Notions used to state the properties of these functions *)

(** The pointers of the [k] sections of an array with [n] columns: they
    start at 1, end at [n + 1] and do not decrease. *)
Definition ptrs_ok (ptr : list Z) (n k : nat) : Prop :=
  length ptr = S k ∧ ptr !! 0%nat = Some 1 ∧ ptr !! k = Some (Z.of_nat n + 1) ∧
  ∀ i a b, ptr !! i = Some a → ptr !! S i = Some b → a ≤ b.

(** The surface sections among the selected names, in order, and the
    messages for the curve sections among them. *)
Definition selected_surfaces (sectionDict : gmap string section)
    (selectedSections : list string) : list (array2d * array2d) :=
  omap (λ name, match sectionDict !! name with
                | Some (SurfaceSection t q) => Some (t, q)
                | _ => None
                end) selectedSections.

Definition is_curve_section (sec : option section) : bool :=
  match sec with
  | Some (CurveSection _) => true
  | _ => false
  end.

Definition selected_curves (sectionDict : gmap string section)
    (selectedSections : list string) : list string :=
  filter (λ name, is_curve_section (sectionDict !! name) = true) selectedSections.

(** All surface sections have triangle arrays of one row count and
    quadrilateral arrays of one row count. *)
Definition uniform_sections (nt nq : nat) (sectionDict : gmap string section) : Prop :=
  ∀ name t q, sectionDict !! name = Some (SurfaceSection t q) →
    nrows t = nt ∧ nrows q = nq.

(** The column ranges that consecutive pointers cut out of a list of
    columns. *)
Fixpoint slices {A : Type} (l : list A) (ptr : list Z) : list (list A) :=
  match ptr with
  | a :: (b :: _) as rest => py_slice l (a - 1) (b - 1) :: slices l rest
  | _ => []
  end.

(** A small file with two surfaces and two curves, used to try the
    statements below. *)
Definition example_cgns : cgns_data :=
  CgnsData (Array2d 3 [[1; 2; 3]; [2; 3; 4]; [4; 5; 6]])
           (Array2d 4 [[1; 2; 3; 4]])
           (Array2d 2 [[1; 2]; [3; 4]; [2; 3]; [7; 8]])
           [1; 3; 4] [1; 1; 2] [1; 4; 5]
           ["wing"; "body"] ["te"; "le"].


(** Arrays of equal row count put side by side; [None] when there is
    none. *)
Definition side_by_side (arrays : list array2d) : option array2d :=
  match arrays with
  | [] => None
  | a :: _ => Some (Array2d (nrows a) (concat (cols <$> arrays)))
  end.

(** *** Tactics *)

(** Membership in explicit lists, by cases. *)
Ltac solve_elem :=
  repeat match goal with
         | H : _ ∈ _ |- _ => rewrite ?elem_of_cons, ?elem_of_nil in H
         end;
  rewrite ?elem_of_cons, ?elem_of_nil; tauto.

(** Discharges the side conditions on a concrete list of bars. *)
Ltac concrete_bars :=
  lazymatch goal with
  | |- exact_ids _ => repeat constructor; unfold exact_id; lia
  | |- Forall (Forall fits_double) _ => repeat constructor; unfold fits_double; lia
  | |- valid_edges _ =>
      split;
      [ repeat constructor; cbn; lia
      | apply (bool_decide_unpack _); vm_compute; exact I
      | repeat constructor; vm_compute; lia ]
  | |- bar_list _ => repeat constructor
  | |- Forall _ _ => repeat constructor; vm_compute; lia
  | |- _ ≠ [] => discriminate
  end.

(** ** Python list operations *)

Lemma getitem_0 (l : list Z) :
  Py.getitem l 0 = match head l with Some x => Returns x | None => Raises IndexError end.
Proof. unfold Py.getitem. by destruct l. Qed.

Lemma getitem_m1 (l : list Z) :
  Py.getitem l (-1) = match last l with Some x => Returns x | None => Raises IndexError end.
Proof.
  unfold Py.getitem. rewrite last_lookup.
  destruct l as [|x l]; [done|]. cbn [length]. cbv zeta.
  destruct (decide (-1 < 0)) as [_|]; [|lia].
  rewrite decide_False by lia.
  replace (Z.to_nat (-1 + Z.of_nat (S (length l)))) with (length l) by lia.
  done.
Qed.

Lemma getitem_nat (l : list Z) (i : nat) :
  Py.getitem l (Z.of_nat i) =
  match l !! i with Some x => Returns x | None => Raises IndexError end.
Proof.
  unfold Py.getitem. cbv zeta.
  destruct (decide (Z.of_nat i < 0)); [lia|].
  rewrite decide_False by lia. by rewrite Nat2Z.id.
Qed.

(** ** The loops on non-empty curves *)

Lemma link_ends_join (o n : list Z) :
  o ≠ [] → n ≠ [] → link_ends o n = Returns (join o n).
Proof.
  intros Ho Hn. unfold link_ends, join.
  rewrite !getitem_0, !getitem_m1.
  destruct (head o) as [o0|] eqn:Eo0; [|by apply head_None in Eo0].
  destruct (head n) as [n0|] eqn:En0; [|by apply head_None in En0].
  destruct (last o) as [ol|] eqn:Eol; [|by apply last_None in Eol].
  destruct (last n) as [nl|] eqn:Enl; [|by apply last_None in Enl].
  cbn. repeat case_decide; simplify_eq; done.
Qed.

(** ** Bars of a curve *)

Lemma segments_join_at (l : list Z) (x : Z) (r : list Z) :
  segments (l ++ x :: r) = segments (l ++ [x]) ++ segments (x :: r).
Proof.
  induction l as [|a l IH]; [done|].
  destruct l as [|b l]; [done|].
  cbn [app segments] in *. by rewrite IH.
Qed.

Lemma segments_cons2 (a b : Z) (p : list Z) :
  segments (a :: b :: p) = [[a; b]] ++ segments (b :: p).
Proof. done. Qed.

Lemma segments_snoc (l : list Z) (y x : Z) :
  segments ((l ++ [y]) ++ [x]) = segments (l ++ [y]) ++ [[y; x]].
Proof. rewrite <- app_assoc. cbn [app]. by rewrite segments_join_at. Qed.

Lemma undirected_swap (a b : Z) : undirected [a; b] = undirected [b; a].
Proof. cbn. by rewrite Z.min_comm, Z.max_comm. Qed.

#[global] Instance same_bars_equiv : Equivalence same_bars.
Proof.
  unfold same_bars. split.
  - by intros E.
  - by intros E1 E2 H.
  - intros E1 E2 E3 H1 H2. by rewrite H1.
Qed.

Lemma same_bars_app (E1 E2 F1 F2 : list (list Z)) :
  same_bars E1 F1 → same_bars E2 F2 → same_bars (E1 ++ E2) (F1 ++ F2).
Proof. unfold same_bars. intros H1 H2. by rewrite !fmap_app, H1, H2. Qed.

Lemma same_bars_comm (E1 E2 : list (list Z)) : same_bars (E1 ++ E2) (E2 ++ E1).
Proof. unfold same_bars. rewrite !fmap_app. apply Permutation_app_comm. Qed.

Lemma segments_reverse (p : list Z) : same_bars (segments (reverse p)) (segments p).
Proof.
  induction p as [|a p IH]; [done|].
  rewrite reverse_cons.
  destruct p as [|b p]; [done|].
  rewrite reverse_cons in *. rewrite segments_snoc, segments_cons2.
  etrans; [apply same_bars_comm|].
  apply same_bars_app; [|done].
  unfold same_bars. cbn [fmap list_fmap]. by rewrite undirected_swap.
Qed.

(** ** Linking two curves *)

Lemma join_None (o n : list Z) : join o n = None ↔ apart o n.
Proof.
  unfold join, apart.
  repeat case_decide; (split; [try done|by intros (?&?&?&?)]).
Qed.

Lemma join_Some (o n c : list Z) :
  join o n = Some c → o ≠ [] → n ≠ [] →
  same_bars (segments c) (segments o ++ segments n) ∧
  (length c + 1 = length o + length n)%nat.
Proof.
  intros Hj Ho Hn.
  destruct (head o) as [o0|] eqn:Eo0; [|by apply head_None in Eo0].
  destruct (head n) as [n0|] eqn:En0; [|by apply head_None in En0].
  destruct (last o) as [ol|] eqn:Eol; [|by apply last_None in Eol].
  destruct (last n) as [nl|] eqn:Enl; [|by apply last_None in Enl].
  apply head_Some in Eo0 as Ho0. destruct Ho0 as [o' Ho'].
  apply head_Some in En0 as Hn0. destruct Hn0 as [n' Hn'].
  apply last_Some in Eol as Hol. destruct Hol as [o'' Ho''].
  apply last_Some in Enl as Hnl. destruct Hnl as [n'' Hn''].
  unfold join in Hj. rewrite Eo0, En0, Eol, Enl in Hj.
  destruct (decide (Some o0 = Some n0)) as [[= <-]|_]; [injection Hj as <-|
  destruct (decide (Some o0 = Some nl)) as [[= <-]|_]; [injection Hj as <-|
  destruct (decide (Some ol = Some n0)) as [[= <-]|_]; [injection Hj as <-|
  destruct (decide (Some ol = Some nl)) as [[= <-]|_]; [injection Hj as <-|done]]]].
  - (* flipped and placed in front *)
    rewrite Ho', Hn'. cbn [tail]. rewrite reverse_cons, <- app_assoc. cbn [app].
    rewrite segments_join_at, <- reverse_cons. split.
    + apply same_bars_app; [apply segments_reverse|done].
    + rewrite !length_app, length_reverse. cbn. lia.
  - (* appended *)
    rewrite Ho', Hn''. rewrite removelast_last, segments_join_at. split.
    + apply same_bars_comm.
    + rewrite !length_app. cbn. lia.
  - (* placed in front *)
    rewrite Ho'', Hn'. cbn [tail]. rewrite <- app_assoc. cbn [app].
    rewrite segments_join_at. split; [done|].
    rewrite !length_app. cbn. lia.
  - (* flipped and appended *)
    rewrite Ho'', Hn''. rewrite removelast_last, reverse_snoc.
    rewrite segments_join_at, <- reverse_snoc. split.
    + etrans; [apply same_bars_comm|].
      apply same_bars_app; [apply segments_reverse|done].
    + rewrite !length_app, length_reverse, !length_app. cbn. lia.
Qed.

Lemma join_length2 (o n c : list Z) :
  join o n = Some c → (2 ≤ length o)%nat → (2 ≤ length n)%nat → (2 ≤ length c)%nat.
Proof.
  intros Hj Ho Hn.
  apply join_Some in Hj as [_ Hl]; [lia| |]; intros ->; cbn in *; lia.
Qed.

Lemma join_nonempty (o n c : list Z) :
  join o n = Some c → o ≠ [] → n ≠ [] → c ≠ [].
Proof.
  intros Hj Ho Hn. apply join_Some in Hj as [_ Hl]; [|done..].
  destruct o, n; try done. intros ->. cbn in Hl. lia.
Qed.

Lemma is_curve_ne (c : list Z) : is_curve c → c ≠ [].
Proof. intros Hc ->. unfold is_curve in Hc. cbn in Hc. lia. Qed.

Lemma is_curve_nonempty (L : list (list Z)) :
  Forall is_curve L → Forall (λ c, c ≠ []) L.
Proof.
  intros H. eapply Forall_impl; [exact H|]. apply is_curve_ne.
Qed.

(** ** The [for] loop *)

Lemma absorb_None (o : list Z) (L : list (list Z)) :
  absorb o L = None ↔ Forall (λ n, join o n = None) L.
Proof.
  induction L as [|n L IH]; cbn [absorb].
  - split; [by constructor|done].
  - rewrite Forall_cons. destruct (join o n) as [c|].
    + split; [done|by intros [? _]].
    + rewrite <- IH. destruct (absorb o L); cbn; [|done].
      split; [done|by intros [_ ?]].
Qed.

Lemma absorb_Some (o : list Z) (L L' : list (list Z)) :
  absorb o L = Some L' →
  ∃ pre n post c, L = pre ++ n :: post ∧ L' = pre ++ c :: post ∧
    join o n = Some c ∧ Forall (λ m, join o m = None) pre.
Proof.
  revert L'. induction L as [|n L IH]; intros L'; cbn [absorb]; [done|].
  destruct (join o n) as [c|] eqn:Ej.
  - intros [= <-]. by exists [], n, L, c.
  - destruct (absorb o L) as [L1|]; [|done]. intros [= <-].
    destruct (IH L1 eq_refl) as (pre & m & post & c & -> & -> & Hj & Hpre).
    exists (n :: pre), m, post, c. repeat split; [done|by constructor].
Qed.

Lemma for_newElement_absorb (o : list Z) (pre todo : list (list Z)) :
  o ≠ [] → Forall (λ n, n ≠ []) todo →
  for_newElement o (pre ++ todo) todo (length pre) =
  Returns ((pre ++.) <$> absorb o todo).
Proof.
  intros Ho Htodo. revert pre.
  induction Htodo as [|n todo Hn Htodo IH]; intros pre; [done|].
  cbn [for_newElement absorb]. rewrite link_ends_join by done.
  destruct (join o n) as [c|]; cbn.
  - unfold Py.setitem. rewrite decide_True by (rewrite length_app; cbn; lia).
    cbn. rewrite insert_app_r_alt by lia. by rewrite Nat.sub_diag.
  - specialize (IH (pre ++ [n])). rewrite <- app_assoc, length_app in IH.
    cbn in IH. rewrite Nat.add_1_r in IH. rewrite IH.
    destruct (absorb o todo); cbn; [|done]. by rewrite <- app_assoc.
Qed.

Lemma absorb_keeps (P : list Z → Prop) (o : list Z) (L L' : list (list Z)) :
  (∀ n c, join o n = Some c → P o → P n → P c) →
  absorb o L = Some L' → P o → Forall P L → Forall P L'.
Proof.
  intros HP Ha Ho HL.
  apply absorb_Some in Ha as (pre & n & post & c & -> & -> & Hj & _).
  apply Forall_app in HL as [Hpre Hpost]. apply Forall_cons in Hpost as [Hn Hpost].
  apply Forall_app. split; [done|]. constructor; [by eapply HP|done].
Qed.

Lemma all_segments_app (L1 L2 : list (list Z)) :
  all_segments (L1 ++ L2) = all_segments L1 ++ all_segments L2.
Proof. unfold all_segments. by rewrite fmap_app, concat_app. Qed.

Lemma all_segments_cons (c : list Z) (L : list (list Z)) :
  all_segments (c :: L) = segments c ++ all_segments L.
Proof. done. Qed.

Lemma absorb_bars (o : list Z) (L L' : list (list Z)) :
  absorb o L = Some L' → o ≠ [] → Forall (λ c, c ≠ []) L →
  length L' = length L ∧
  same_bars (all_segments L') (all_segments L ++ segments o).
Proof.
  intros Ha Ho HL.
  apply absorb_Some in Ha as (pre & n & post & c & -> & -> & Hj & _).
  apply Forall_app in HL as [_ Hpost]. apply Forall_cons in Hpost as [Hn _].
  apply join_Some in Hj as [Hb _]; [|done..].
  split; [by rewrite !length_app|].
  rewrite !all_segments_app, !all_segments_cons, <- app_assoc.
  apply same_bars_app; [done|].
  etrans; [apply same_bars_app; [apply Hb|reflexivity]|].
  rewrite <- !app_assoc.
  etrans; [apply same_bars_comm|]. by rewrite <- app_assoc.
Qed.

(** ** The inner [while] loop *)

Lemma while_oldConn_stitch (old new : list (list Z)) (k : bool) :
  Forall (λ c, c ≠ []) old → Forall (λ c, c ≠ []) new →
  while_oldConn old new k = Returns (stitch old new k).
Proof.
  intros Hold. revert new k.
  induction Hold as [|o old Ho Hold IH]; intros new k Hnew; [done|].
  cbn [while_oldConn stitch].
  pose proof (for_newElement_absorb o [] new Ho Hnew) as Hfor.
  cbn [app length] in Hfor. rewrite Hfor.
  destruct (absorb o new) as [new'|] eqn:Ea; cbn.
  - apply IH. eapply absorb_keeps; [|done..].
    intros n c Hj ??. by eapply join_nonempty.
  - apply IH. apply Forall_app. split; [done|by constructor].
Qed.

Lemma settled_snoc (L : list (list Z)) (q : list Z) :
  settled L → Forall (λ p, join q p = None) L → settled (L ++ [q]).
Proof.
  induction L as [|p L IH]; cbn [settled app].
  - intros _ _. split; [by constructor|done].
  - intros [Hp HL] Hq. apply Forall_cons in Hq as [Hqp Hq]. split.
    + apply Forall_app. split; [done|by constructor].
    + by apply IH.
Qed.

Lemma stitch_spec (old new : list (list Z)) (k : bool) (L' : list (list Z)) (k' : bool) :
  stitch old new k = (L', k') →
  Forall is_curve old → Forall is_curve new →
  Forall is_curve L' ∧
  same_bars (all_segments L') (all_segments (new ++ old)) ∧
  (length new ≤ length L' ≤ length new + length old)%nat ∧
  (k = false → k' = true → length L' < length new + length old)%nat ∧
  (k' = false → k = false ∧ L' = new ++ old ∧ (settled new → settled L')).
Proof.
  revert new k. induction old as [|o old IH]; intros new k; cbn [stitch].
  - intros [= <- <-] _ Hnew. rewrite app_nil_r.
    repeat split; try done; try lia. intros ->. done.
  - intros Hs Hold Hnew. apply Forall_cons in Hold as [Ho Hold].
    destruct (absorb o new) as [new'|] eqn:Ea.
    + assert (Forall is_curve new') as Hnew'.
      { eapply absorb_keeps; [|done..]. intros n c Hj ??. by eapply join_length2. }
      apply absorb_bars in Ea as [Hlen Hb];
        [|by apply is_curve_ne|by apply is_curve_nonempty].
      destruct (IH _ _ Hs Hold Hnew') as (H1 & H2 & H3 & _ & H5).
      split; [done|]. split.
      { etrans; [exact H2|]. rewrite !all_segments_app, all_segments_cons.
        rewrite app_assoc. apply same_bars_app; [|done].
        by rewrite Hb. }
      cbn [length]. rewrite Hlen in H3.
      split; [lia|]. split; [lia|].
      intros ->. by destruct (H5 eq_refl).
    + assert (Forall is_curve (new ++ [o])) as Hnew'.
      { apply Forall_app. split; [done|by constructor]. }
      destruct (IH _ _ Hs Hold Hnew') as (H1 & H2 & H3 & H4 & H5).
      rewrite length_app in H3, H4. cbn [length] in *.
      rewrite <- app_assoc in H2, H5. cbn [app] in H2, H5.
      split; [done|]. split; [done|]. split; [lia|].
      split; [intros Hk Hk'; specialize (H4 Hk Hk'); lia|].
      intros Hk'. destruct (H5 Hk') as (-> & -> & Hset).
      repeat split. intros Hsn. apply Hset, settled_snoc; [done|].
      by apply absorb_None.
Qed.

(** ** One pass of the outer loop *)

Lemma pass_stitch (first : list Z) (old : list (list Z)) :
  Forall (λ c, c ≠ []) (first :: old) →
  pass (first :: old) = Returns (stitch old [first] false).
Proof.
  intros H. apply Forall_cons in H as [Hf Hold]. cbn [pass].
  apply while_oldConn_stitch; [done|by constructor].
Qed.

Lemma pass_spec (L : list (list Z)) :
  Forall is_curve L → L ≠ [] →
  ∃ L' k, pass L = Returns (L', k) ∧
    Forall is_curve L' ∧ L' ≠ [] ∧
    same_bars (all_segments L') (all_segments L) ∧
    (k = true → length L' < length L)%nat ∧
    (k = false → L' = L ∧ settled L).
Proof.
  intros HL Hne. destruct L as [|first old]; [done|].
  rewrite pass_stitch by by apply is_curve_nonempty.
  destruct (stitch old [first] false) as [L' k] eqn:Es.
  apply Forall_cons in HL as [Hf Hold].
  apply stitch_spec in Es as (H1 & H2 & H3 & H4 & H5);
    [|done|by constructor].
  exists L', k. cbn [length app] in *.
  split; [done|]. split; [done|]. split.
  { intros ->. cbn in H3. lia. }
  split; [done|]. split.
  - intros ->. specialize (H4 eq_refl eq_refl). lia.
  - intros ->. destruct (H5 eq_refl) as (_ & -> & Hs). split; [done|].
    apply Hs. cbn. split; [by constructor|done].
Qed.

(** ** The outer loop *)

Lemma while_keep_searching_spec (fuel : nat) (L : list (list Z)) :
  Forall is_curve L → L ≠ [] → (length L ≤ fuel)%nat →
  ∃ P, while_keep_searching fuel L = Returns P ∧
    Forall is_curve P ∧ P ≠ [] ∧
    same_bars (all_segments P) (all_segments L) ∧
    pass P = Returns (P, false) ∧ settled P ∧
    (length P ≤ length L)%nat.
Proof.
  revert L. induction fuel as [|fuel IH]; intros L HL Hne Hlen.
  { destruct L; [done|]. cbn in Hlen. lia. }
  destruct (pass_spec L HL Hne) as (L' & k & Hp & HL' & Hne' & Hb & Hlt & Hfix).
  cbn [while_keep_searching]. rewrite Hp. cbn.
  destruct k.
  - specialize (Hlt eq_refl).
    destruct (IH L' HL' Hne') as (P & HP & H1 & H2 & H3 & H4 & H5 & H6); [lia|].
    exists P. repeat split; try done; [by etrans|lia].
  - destruct (Hfix eq_refl) as [-> Hs].
    exists L. repeat split; done.
Qed.

Lemma while_keep_searching_mono (fuel fuel' : nat) (L P : list (list Z)) :
  (fuel ≤ fuel')%nat →
  while_keep_searching fuel L = Returns P →
  while_keep_searching fuel' L = Returns P.
Proof.
  revert fuel' L. induction fuel as [|fuel IH]; intros fuel' L Hle; [done|].
  destruct fuel' as [|fuel']; [lia|].
  cbn [while_keep_searching].
  destruct (pass L) as [[L' k]|e|]; cbn; [|done..].
  destruct k; [|done]. apply IH. lia.
Qed.

(** ** Point ids kept by the loops *)

Lemma join_keeps (Q : Z → Prop) (o n c : list Z) :
  join o n = Some c → Forall Q o → Forall Q n → Forall Q c.
Proof.
  intros Hj Ho Hn. unfold join in Hj.
  assert (Forall Q (reverse o)) as Hro by by apply Forall_reverse.
  assert (Forall Q (tail n)) as Htn by by apply Forall_tail.
  assert (Forall Q (removelast n)) as Hln.
  { rewrite removelast_firstn_len. by apply Forall_take. }
  repeat case_decide; simplify_eq; apply Forall_app; done.
Qed.

Lemma stitch_keeps (P : list Z → Prop) (old new : list (list Z)) (k : bool) :
  (∀ o n c, join o n = Some c → P o → P n → P c) →
  Forall P old → Forall P new → Forall P (stitch old new k).1.
Proof.
  intros HP Hold. revert new k.
  induction Hold as [|o old Ho Hold IH]; intros new k Hnew; [done|].
  cbn [stitch]. destruct (absorb o new) as [new'|] eqn:Ea.
  - apply IH. eapply absorb_keeps; [|done..]. intros n c. apply HP.
  - apply IH. apply Forall_app. split; [done|by constructor].
Qed.

Lemma while_keep_searching_keeps (Q : Z → Prop) (fuel : nat) (L P : list (list Z)) :
  Forall (λ c, c ≠ []) L → Forall (Forall Q) L →
  while_keep_searching fuel L = Returns P →
  Forall (λ c, c ≠ []) P ∧ Forall (Forall Q) P.
Proof.
  revert L. induction fuel as [|fuel IH]; intros L Hne HQ; [done|].
  cbn [while_keep_searching].
  destruct L as [|first old]; [done|]. rewrite pass_stitch by done.
  apply Forall_cons in Hne as [Hf Hold]. apply Forall_cons in HQ as [HQf HQold].
  pose proof (stitch_keeps (λ c, c ≠ [] ∧ Forall Q c) old [first] false) as Hst.
  destruct (stitch old [first] false) as [L' k]. cbn [fst] in Hst. cbn.
  assert (Forall (λ c, c ≠ [] ∧ Forall Q c) L') as HL'.
  { apply Hst.
    - intros o n c Hj [Ho HQo] [Hn HQn]. split.
      + by eapply join_nonempty.
      + by eapply join_keeps.
    - apply Forall_forall. intros c Hc. split.
      + by eapply Forall_forall in Hold.
      + by eapply Forall_forall in HQold.
    - by constructor. }
  apply Forall_and in HL' as [HL1 HL2].
  destruct k; [by apply IH|]. by intros [= <-].
Qed.

(** ** Conversion of an id to float64 *)

Lemma float64_exact (x : Z) : exact_id x → float64 x = Returns x.
Proof.
  unfold exact_id. intros Hx.
  destruct (decide (Z.abs x = 2 ^ 53)) as [Hx'|Hx'].
  - assert (x = 2 ^ 53 ∨ x = - 2 ^ 53) as [->| ->] by lia; reflexivity.
  - unfold float64. cbv zeta. rewrite decide_True; [done|].
    destruct (decide (Z.abs x = 0)) as [->|Hz]; [done|].
    assert (Z.log2 (Z.abs x) < 53); [|lia].
    apply Z.log2_lt_pow2; lia.
Qed.

Lemma float64_cases (x : Z) :
  float64 x = Returns (stored x) ∨ float64 x = Raises OverflowError.
Proof.
  unfold stored. destruct (float64 x) as [y|e|] eqn:Ef; [by left|right|exfalso];
    unfold float64 in Ef; cbv zeta in Ef; repeat case_decide; by simplify_eq.
Qed.

Lemma float64_fits (x : Z) : fits_double x → float64 x = Returns (stored x).
Proof.
  intros Hx. destruct (float64_cases x) as [|Hov]; [done|]. exfalso.
  revert Hov. unfold fits_double in Hx. unfold float64. cbv zeta.
  destruct (decide (Z.log2 (Z.abs x) - 52 ≤ 0)) as [|He]; [done|].
  set (a := Z.abs x) in *. set (e := Z.log2 a - 52) in *.
  assert (0 < a) as Ha.
  { destruct (decide (a = 0)) as [Hz|]; [|lia]. subst e. rewrite Hz in He. cbn in He. lia. }
  destruct (Z.log2_spec a Ha) as [Hlo Hhi].
  assert (Z.log2 a < 1024) as Hn by (apply Z.log2_lt_pow2; [done|lia]).
  assert (0 < 2 ^ e) as Hu by (apply Z.pow_pos_nonneg; lia).
  assert (2 ^ Z.succ (Z.log2 a) = 2 ^ 53 * 2 ^ e) as Hpow.
  { rewrite <- Z.pow_add_r by lia. f_equal. lia. }
  pose proof (Z.div_mod a (2 ^ e) ltac:(lia)) as Hdm.
  pose proof (Z.mod_pos_bound a (2 ^ e) Hu) as Hr.
  set (q := a / 2 ^ e) in *. set (r := a mod 2 ^ e) in *.
  assert (q < 2 ^ 53) as Hq by nia.
  rewrite decide_False; [done|].
  destruct (decide (e = 971)) as [He'|He'].
  - rewrite He' in *. case_decide; lia.
  - assert (2 ^ e ≤ 2 ^ 970) by (apply Z.pow_le_mono_r; lia).
    assert (∀ q', q' ≤ 2 ^ 53 → ¬ 2 ^ 1024 ≤ q' * 2 ^ e) as Hgen.
    { intros q' Hq'. assert (q' * 2 ^ e ≤ 2 ^ 53 * 2 ^ 970); [|lia].
      destruct (decide (0 ≤ q')); [apply Z.mul_le_mono_nonneg; lia|nia]. }
    case_decide; apply Hgen; lia.
Qed.

Lemma float64_overflow (x : Z) : ¬ fits_double x → float64 x = Raises OverflowError.
Proof.
  unfold fits_double. intros Hx. unfold float64. cbv zeta.
  set (a := Z.abs x) in *.
  assert (2 ^ 1023 ≤ a) as Hbig by lia.
  assert (0 < a) as Ha by lia.
  assert (1023 ≤ Z.log2 a) as Hn by (apply Z.log2_le_pow2; lia).
  destruct (Z.log2_spec a Ha) as [Hlo Hhi].
  rewrite decide_False by lia.
  set (e := Z.log2 a - 52) in *.
  assert (0 < 2 ^ e) as Hu by (apply Z.pow_pos_nonneg; lia).
  assert (2 ^ Z.log2 a = 2 ^ 52 * 2 ^ e) as Hpow.
  { rewrite <- Z.pow_add_r by lia. f_equal. lia. }
  assert (2 ^ Z.succ (Z.log2 a) = 2 ^ 53 * 2 ^ e) as Hpow'.
  { rewrite <- Z.pow_add_r by lia. f_equal. lia. }
  pose proof (Z.div_mod a (2 ^ e) ltac:(lia)) as Hdm.
  pose proof (Z.mod_pos_bound a (2 ^ e) Hu) as Hr.
  set (q := a / 2 ^ e) in *. set (r := a mod 2 ^ e) in *.
  assert (2 ^ 52 ≤ q < 2 ^ 53) as Hq by nia.
  rewrite decide_True; [done|].
  destruct (decide (e = 971)) as [He'|He'].
  - rewrite He' in *.
    assert (q = 2 ^ 53 - 1) as Hq' by lia.
    rewrite decide_True; [lia|].
    destruct (decide (2 ^ 971 < 2 * r)); [by left|right].
    split; [lia|]. rewrite Hq'. reflexivity.
  - assert (2 ^ 972 ≤ 2 ^ e) by (apply Z.pow_le_mono_r; lia).
    assert (2 ^ 52 * 2 ^ 972 ≤ q * 2 ^ e) by (apply Z.mul_le_mono_nonneg; lia).
    case_decide; nia.
Qed.

Lemma exact_id_fits (x : Z) : exact_id x → fits_double x.
Proof. unfold exact_id, fits_double. lia. Qed.

Lemma stored_exact (x : Z) : exact_id x → stored x = x.
Proof. intros Hx. unfold stored. by rewrite float64_exact. Qed.

Lemma stored_exact_ids (P : list (list Z)) :
  exact_ids P → fmap (M:=list) stored <$> P = P.
Proof.
  induction 1 as [|c P Hc HP IH]; [done|].
  rewrite fmap_cons, IH. f_equal.
  induction Hc as [|x c Hx Hc IHc]; [done|].
  by rewrite fmap_cons, IHc, stored_exact.
Qed.

Lemma fits_no_overflow (P : list (list Z)) :
  Forall (Forall fits_double) P →
  ¬ Exists (Exists (λ x, float64 x = Raises OverflowError)) P.
Proof.
  intros HP (c & Hc & (x & Hx & Hov)%Exists_exists)%Exists_exists.
  eapply Forall_forall in HP; [|exact Hc].
  eapply Forall_forall in HP; [|exact Hx].
  rewrite float64_fits in Hov by done. discriminate Hov.
Qed.

Lemma exact_ids_fit (P : list (list Z)) : exact_ids P → Forall (Forall fits_double) P.
Proof.
  intros HP. eapply Forall_impl; [exact HP|]. intros c Hc.
  eapply Forall_impl; [exact Hc|]. apply exact_id_fits.
Qed.

(** ** Conversion to FE format *)

Lemma length_tail_pred (l : list Z) : length (tail l) = pred (length l).
Proof. by destruct l. Qed.

Lemma for_pointID_fill (curve : list Z) (n j k : nat) :
  length curve = S n → (k + j = n)%nat →
  for_pointID curve
    (Ndarray2 (take k (stored <$> curve) ++ replicate (n - k) 0)
              (take k (tail (stored <$> curve)) ++ replicate (n - k) 0))
    (seq (S k) j) =
  Returns (Ndarray2 (take n (stored <$> curve)) (take n (tail (stored <$> curve)))) ∨
  (for_pointID curve
    (Ndarray2 (take k (stored <$> curve) ++ replicate (n - k) 0)
              (take k (tail (stored <$> curve)) ++ replicate (n - k) 0))
    (seq (S k) j) = Raises OverflowError ∧
   Exists (λ x, float64 x = Raises OverflowError) curve).
Proof.
  intros Hlen. revert k. induction j as [|j IH]; intros k Hk.
  - left. cbn. replace k with n by lia. by rewrite Nat.sub_diag, !app_nil_r.
  - cbn [seq for_pointID]. unfold assign_bar.
    replace (Z.of_nat (S k) - 1) with (Z.of_nat k) by lia.
    rewrite !getitem_nat.
    destruct (lookup_lt_is_Some_2 curve k) as [x Hx]; [lia|].
    destruct (lookup_lt_is_Some_2 (tail curve) k) as [y Hy];
      [rewrite length_tail_pred; lia|].
    rewrite Hx. rewrite <- lookup_tail, Hy. cbn [mbind outcome_bind obind].
    rewrite Nat.sub_succ, Nat.sub_0_r. unfold np_store. cbn [row0 row1].
    rewrite !decide_True
      by (rewrite length_app, length_take, length_replicate, ?length_tail_pred,
            ?length_fmap; lia).
    destruct (float64_cases x) as [Hfx|Hfx]; rewrite Hfx; cbn [mbind outcome_bind obind].
    2:{ right. split; [done|]. apply Exists_exists. exists x.
        split; [by eapply list_elem_of_lookup_2|done]. }
    destruct (float64_cases y) as [Hfy|Hfy]; rewrite Hfy; cbn [mbind outcome_bind obind].
    2:{ right. split; [done|]. apply Exists_exists. exists y.
        split; [|done]. rewrite lookup_tail in Hy. by eapply list_elem_of_lookup_2. }
    rewrite !insert_app_r_alt by (rewrite length_take; lia).
    rewrite !length_take, length_tail_pred, length_fmap, Hlen.
    replace (k - k `min` S n)%nat with 0%nat by lia.
    replace (k - k `min` Init.Nat.pred (S n))%nat with 0%nat by lia.
    replace (n - k)%nat with (S (n - S k)) by lia. cbn [replicate].
    cbn [insert list_insert].
    specialize (IH (S k)).
    assert ((stored <$> curve) !! k = Some (stored x)) as Hsx
      by by rewrite list_lookup_fmap, Hx.
    assert (tail (stored <$> curve) !! k = Some (stored y)) as Hsy.
    { rewrite lookup_tail, list_lookup_fmap. rewrite lookup_tail in Hy. by rewrite Hy. }
    rewrite (take_S_r _ k _ Hsx), (take_S_r _ k _ Hsy) in IH.
    rewrite <- !app_assoc in IH. cbn [app] in IH. apply IH. lia.
Qed.

Lemma to_FE_take (curve : list Z) (n : nat) :
  length curve = S n →
  Ndarray2 (take n curve) (take n (tail curve)) = to_FE curve.
Proof.
  intros Hlen. unfold to_FE. f_equal.
  - rewrite removelast_firstn_len, Hlen. done.
  - apply take_ge. rewrite length_tail_pred. lia.
Qed.

Lemma alloc_FE_zeros (newConn : list (list Z)) :
  Forall (λ c, c ≠ []) newConn →
  alloc_FE newConn =
  Returns ((λ c, Ndarray2 (replicate (length c - 1) 0) (replicate (length c - 1) 0))
             <$> newConn).
Proof.
  induction 1 as [|curve rest Hc Hrest IH]; [done|].
  cbn [alloc_FE]. unfold np_zeros2.
  destruct curve as [|x curve]; [done|]. cbn [length].
  rewrite decide_False by lia.
  replace (Z.to_nat (Z.of_nat (S (length curve)) - 1)) with (length curve) by lia.
  rewrite IH. cbn. by rewrite Nat.sub_0_r.
Qed.

Lemma fill_FE_zeros (newConn : list (list Z)) :
  Forall (λ c, c ≠ []) newConn →
  fill_FE newConn
    ((λ c, Ndarray2 (replicate (length c - 1) 0) (replicate (length c - 1) 0))
       <$> newConn) =
  Returns (to_FE <$> (fmap (M:=list) stored <$> newConn)) ∨
  (fill_FE newConn
    ((λ c, Ndarray2 (replicate (length c - 1) 0) (replicate (length c - 1) 0))
       <$> newConn) = Raises OverflowError ∧
   Exists (Exists (λ x, float64 x = Raises OverflowError)) newConn).
Proof.
  induction 1 as [|curve rest Hc Hrest IH]; [by left|].
  rewrite fmap_cons. cbn [fill_FE].
  destruct curve as [|x curve]; [done|]. cbn [length].
  replace (S (length curve) - 1)%nat with (length curve) by lia.
  pose proof (for_pointID_fill (x :: curve) (length curve) (length curve) 0
                eq_refl eq_refl) as Hfill.
  rewrite !take_0, Nat.sub_0_r in Hfill. cbn [app] in Hfill.
  destruct Hfill as [Hfill|[Hfill Hex]]; rewrite Hfill; cbn [mbind outcome_bind obind].
  2:{ right. split; [done|]. by left. }
  destruct IH as [IH|[IH Hex]]; rewrite IH; cbn [mbind outcome_bind obind].
  2:{ right. split; [done|]. by right. }
  left. rewrite !fmap_cons. f_equal. f_equal.
  apply to_FE_take. cbn [length]. by rewrite length_fmap.
Qed.

Lemma columns_to_FE (curve : list Z) : columns (to_FE curve) = segments curve.
Proof.
  unfold columns, to_FE. cbn [row0 row1].
  induction curve as [|a curve IH]; [done|].
  destruct curve as [|b curve]; [done|].
  cbn [tail] in *. change (removelast (a :: b :: curve)) with (a :: removelast (b :: curve)).
  cbn [zip_with segments]. by rewrite IH.
Qed.

Lemma bars_to_FE (P : list (list Z)) : bars (to_FE <$> P) = all_segments P.
Proof.
  unfold bars, all_segments. rewrite <- list_fmap_compose. f_equal.
  apply list_fmap_ext. intros _ c _. apply columns_to_FE.
Qed.

Lemma all_segments_bar_list (E : list (list Z)) : bar_list E → all_segments E = E.
Proof.
  induction 1 as [|e E He HE IH]; [done|].
  rewrite all_segments_cons, IH.
  destruct e as [|a [|b [|??]]]; done.
Qed.

Lemma bar_list_is_curve (E : list (list Z)) : bar_list E → Forall is_curve E.
Proof.
  intros H. eapply Forall_impl; [exact H|].
  intros e He. unfold is_curve. cbn beta in He. lia.
Qed.

(** ** The whole routine on a non-empty list of bars *)

Lemma FEsort_fuel_cases (fuel : nat) (L P : list (list Z)) :
  while_keep_searching fuel L = Returns P → Forall (λ c, c ≠ []) P →
  FEsort_fuel fuel L = Returns (Some (to_FE <$> (fmap (M:=list) stored <$> P))) ∨
  (FEsort_fuel fuel L = Raises OverflowError ∧
   Exists (Exists (λ x, float64 x = Raises OverflowError)) P).
Proof.
  intros HP Hne. unfold FEsort_fuel. rewrite HP. cbn [mbind outcome_bind obind].
  rewrite alloc_FE_zeros by done. cbn [mbind outcome_bind obind].
  destruct (fill_FE_zeros P Hne) as [->|[-> Hex]]; [by left|by right].
Qed.

Lemma FEsort_fuel_fits (fuel : nat) (L P : list (list Z)) :
  while_keep_searching fuel L = Returns P → Forall (λ c, c ≠ []) P →
  Forall (Forall fits_double) P →
  FEsort_fuel fuel L = Returns (Some (to_FE <$> (fmap (M:=list) stored <$> P))).
Proof.
  intros HP Hne Hfit.
  destruct (FEsort_fuel_cases fuel L P HP Hne) as [|[_ Hex]]; [done|].
  by apply fits_no_overflow in Hex.
Qed.

Lemma FEsort_fuel_Returns (fuel : nat) (L P : list (list Z)) :
  while_keep_searching fuel L = Returns P → Forall (λ c, c ≠ []) P →
  exact_ids P →
  FEsort_fuel fuel L = Returns (Some (to_FE <$> P)).
Proof.
  intros HP Hne Hex.
  rewrite (FEsort_fuel_fits fuel L P HP Hne (exact_ids_fit P Hex)).
  by rewrite stored_exact_ids.
Qed.

Lemma FEsort_fuel_spec (L : list (list Z)) :
  Forall is_curve L → L ≠ [] → exact_ids L →
  ∃ P, FEsort_curves L = Returns P ∧
    (∀ fuel, (length L ≤ fuel)%nat → FEsort_fuel fuel L = Returns (Some (to_FE <$> P))) ∧
    Forall is_curve P ∧ P ≠ [] ∧
    same_bars (all_segments P) (all_segments L) ∧
    pass P = Returns (P, false) ∧ settled P ∧ (length P ≤ length L)%nat.
Proof.
  intros HL Hne Hex.
  destruct (while_keep_searching_spec (length L) L HL Hne (le_n _))
    as (P & HP & H1 & H2 & H3 & H4 & H5 & H6).
  exists P. split.
  { unfold FEsort_curves. eapply while_keep_searching_mono; [|exact HP]. lia. }
  split; [|done].
  intros fuel Hfuel. apply FEsort_fuel_Returns; [|by apply is_curve_nonempty|].
  - by apply (while_keep_searching_mono (length L)).
  - by eapply (while_keep_searching_keeps exact_id);
      [apply is_curve_nonempty| |exact HP].
Qed.

Lemma FEsort_fuel_any (L : list (list Z)) :
  Forall is_curve L → L ≠ [] →
  ∃ P, (∀ fuel, (length L ≤ fuel)%nat → while_keep_searching fuel L = Returns P) ∧
    Forall is_curve P ∧ (length P ≤ length L)%nat ∧
    (Forall (Forall fits_double) L → Forall (Forall fits_double) P) ∧
    ∀ fuel, (length L ≤ fuel)%nat →
      FEsort_fuel fuel L = Returns (Some (to_FE <$> (fmap (M:=list) stored <$> P))) ∨
      (FEsort_fuel fuel L = Raises OverflowError ∧
       Exists (Exists (λ x, float64 x = Raises OverflowError)) P).
Proof.
  intros HL Hne.
  destruct (while_keep_searching_spec (length L) L HL Hne (le_n _))
    as (P & HP & H1 & _ & _ & _ & _ & H6).
  assert (∀ fuel, (length L ≤ fuel)%nat → while_keep_searching fuel L = Returns P)
    as Hfuel.
  { intros fuel Hfuel. by apply (while_keep_searching_mono (length L)). }
  exists P. split; [done|]. split; [done|]. split; [done|]. split.
  - intros Hfit.
    by eapply (while_keep_searching_keeps fits_double);
      [apply is_curve_nonempty| |exact HP].
  - intros fuel Hf. apply FEsort_fuel_cases; [by apply Hfuel|by apply is_curve_nonempty].
Qed.

Lemma FEsort_spec (E : list (list Z)) :
  bar_list E → E ≠ [] → exact_ids E →
  ∃ P, FEsort_curves E = Returns P ∧
    FEsort E = Returns (Some (to_FE <$> P)) ∧
    Forall is_curve P ∧ P ≠ [] ∧
    same_bars (all_segments P) E ∧
    pass P = Returns (P, false) ∧ settled P.
Proof.
  intros HE Hne Hex.
  destruct (FEsort_fuel_spec E (bar_list_is_curve E HE) Hne Hex)
    as (P & HP & Hfuel & H1 & H2 & H3 & H4 & H5 & _).
  exists P. split; [done|]. split; [apply Hfuel; lia|].
  rewrite (all_segments_bar_list E HE) in H3. done.
Qed.

Lemma FEsort_returns (E : list (list Z)) :
  bar_list E → E ≠ [] → exact_ids E →
  ∃ out, FEsort E = Returns (Some out) ∧ same_bars (bars out) E.
Proof.
  intros HE Hne Hex.
  destruct (FEsort_spec E HE Hne Hex) as (P & _ & HF & _ & _ & Hb & _).
  exists (to_FE <$> P). split; [done|]. by rewrite bars_to_FE.
Qed.

(** ** The step bound is never reached

    Whatever the input, also one on which an exception is raised, a pass
    that asks for another one has shortened the working list; the bound
    [S (length barsConn)] of [FEsort] therefore never cuts a run short. *)

Lemma getitem_no_timeout (l : list Z) (i : Z) : Py.getitem l i ≠ OutOfFuel.
Proof.
  unfold Py.getitem. cbv zeta. case_decide; [done|].
  by destruct (l !! _).
Qed.

Lemma link_ends_no_timeout (o n : list Z) : link_ends o n ≠ OutOfFuel.
Proof.
  unfold link_ends.
  repeat (match goal with
          | |- context [Py.getitem ?l ?i] =>
              let E := fresh in
              destruct (Py.getitem l i) eqn:E;
              [|done|by apply getitem_no_timeout in E]
          end; cbn; try case_decide; try done).
  by case_decide.
Qed.

Lemma for_newElement_length (o : list Z) (newConn todo : list (list Z)) (i : nat) :
  for_newElement o newConn todo i ≠ OutOfFuel ∧
  ∀ L', for_newElement o newConn todo i = Returns (Some L') →
        length L' = length newConn.
Proof.
  revert i. induction todo as [|n todo IH]; intros i; cbn [for_newElement]; [done|].
  pose proof (link_ends_no_timeout o n) as Hl.
  destruct (link_ends o n) as [[c|]|e|]; cbn; [| |done..].
  - unfold Py.setitem. case_decide; cbn; [|done]. split; [done|].
    intros L' [= <-]. apply length_insert.
  - apply IH.
Qed.

Lemma while_oldConn_length (old new : list (list Z)) (k : bool) :
  while_oldConn old new k ≠ OutOfFuel ∧
  ∀ L' k', while_oldConn old new k = Returns (L', k') →
    (length new ≤ length L' ≤ length new + length old)%nat ∧
    (k = false → k' = true → length L' < length new + length old)%nat.
Proof.
  revert new k. induction old as [|o old IH]; intros new k; cbn [while_oldConn].
  { split; [done|]. intros L' k' [= <- <-]. split; [lia|]. by intros ->. }
  destruct (for_newElement_length o new new 0) as [Hto Hlen].
  destruct (for_newElement o new new 0) as [[new'|]|e|]; cbn; [| |done..].
  - destruct (IH new' true) as [Hto' Hlen']. split; [done|].
    intros L' k' HL'. destruct (Hlen' L' k' HL') as [H1 _].
    rewrite (Hlen new' eq_refl) in H1. cbn [length]. lia.
  - destruct (IH (new ++ [o]) k) as [Hto' Hlen']. split; [done|].
    intros L' k' HL'. destruct (Hlen' L' k' HL') as [H1 H2].
    rewrite length_app in H1, H2. cbn [length] in *. split; [lia|].
    intros Hk Hk'. specialize (H2 Hk Hk'). lia.
Qed.

Lemma pass_length (L : list (list Z)) :
  pass L ≠ OutOfFuel ∧
  ∀ L' k, pass L = Returns (L', k) → (k = true → length L' < length L)%nat.
Proof.
  destruct L as [|first old]; cbn [pass]; [done|].
  destruct (while_oldConn_length old [first] false) as [Hto Hlen].
  split; [done|]. intros L' k HL' ->.
  destruct (Hlen L' true HL') as [_ H]. specialize (H eq_refl eq_refl).
  cbn [length] in *. lia.
Qed.

Lemma while_keep_searching_no_timeout (fuel : nat) (L : list (list Z)) :
  (length L < fuel)%nat → while_keep_searching fuel L ≠ OutOfFuel.
Proof.
  revert L. induction fuel as [|fuel IH]; intros L Hfuel; [lia|].
  cbn [while_keep_searching].
  destruct (pass_length L) as [Hto Hlen].
  destruct (pass L) as [[L' k]|e|]; cbn; [|done..].
  destruct k; [|done]. apply IH. specialize (Hlen L' true eq_refl eq_refl). lia.
Qed.

Lemma FEsort_bound_not_reached (barsConn : list (list Z)) :
  FEsort_curves barsConn ≠ OutOfFuel ∧ FEsort barsConn ≠ OutOfFuel.
Proof.
  pose proof (while_keep_searching_no_timeout (S (length barsConn)) barsConn
                (Nat.lt_succ_diag_r _)) as Hto.
  split; [done|]. unfold FEsort, FEsort_fuel.
  destruct (while_keep_searching _ _) as [P|e|]; cbn; [|done..]. clear Hto.
  assert (alloc_FE P ≠ OutOfFuel) as Halloc.
  { induction P as [|c P IH]; [done|]. cbn [alloc_FE]. unfold np_zeros2.
    case_decide; cbn; [done|]. by destruct (alloc_FE P). }
  destruct (alloc_FE P) as [fe|e|]; cbn; [|done..]. clear Halloc.
  assert (∀ c a ids, for_pointID c a ids ≠ OutOfFuel) as Hfor.
  { intros c a ids. revert a. induction ids as [|i ids IH]; intros a; [done|].
    cbn [for_pointID]. unfold assign_bar.
    pose proof (getitem_no_timeout c (Z.of_nat i - 1)).
    destruct (Py.getitem c (Z.of_nat i - 1)) as [x| |];
      cbn [mbind outcome_bind obind]; [|done..].
    pose proof (getitem_no_timeout c (Z.of_nat i)).
    destruct (Py.getitem c (Z.of_nat i)) as [y| |];
      cbn [mbind outcome_bind obind]; [|done..].
    unfold np_store.
    destruct (decide (i - 1 < length (row0 a))%nat);
      cbn [mbind outcome_bind obind]; [|done].
    destruct (float64_cases x) as [-> | ->]; cbn [mbind outcome_bind obind]; [|done].
    destruct (decide (i - 1 < length (row1 a))%nat);
      cbn [mbind outcome_bind obind]; [|done].
    destruct (float64_cases y) as [-> | ->]; cbn [mbind outcome_bind obind]; [|done].
    apply IH. }
  assert (fill_FE P fe ≠ OutOfFuel) as Hfill.
  { revert fe. induction P as [|c P IH]; intros [|a fe]; try done.
    cbn [fill_FE]. specialize (Hfor c a (seq 1 (length c - 1))).
    destruct (for_pointID c a _); cbn; [|done..].
    specialize (IH fe). by destruct (fill_FE P fe). }
  by destruct (fill_FE P fe).
Qed.

(** ** Degrees *)

Lemma degree_app (v : Z) (E1 E2 : list (list Z)) :
  degree v (E1 ++ E2) = (degree v E1 + degree v E2)%nat.
Proof. unfold degree. by rewrite filter_app, length_app. Qed.

Lemma degree_cons (v : Z) (e : list Z) (E : list (list Z)) :
  degree v (e :: E) = ((if decide (v ∈ e) then 1 else 0) + degree v E)%nat.
Proof. unfold degree. rewrite filter_cons. by case_decide. Qed.

Lemma elem_of_undirected (v : Z) (e : list Z) : v ∈ undirected e ↔ v ∈ e.
Proof.
  destruct e as [|a [|b [|??]]]; try done. cbn.
  rewrite !elem_of_cons, !elem_of_nil.
  destruct (Z.le_ge_cases a b) as [H|H];
    [rewrite Z.min_l, Z.max_r by lia|rewrite Z.min_r, Z.max_l by lia]; tauto.
Qed.

Lemma degree_undirected (v : Z) (E : list (list Z)) :
  degree v (undirected <$> E) = degree v E.
Proof.
  induction E as [|e E IH]; [done|].
  rewrite fmap_cons, !degree_cons, IH.
  pose proof (elem_of_undirected v e). repeat case_decide; tauto || done.
Qed.

Lemma degree_same_bars (v : Z) (E1 E2 : list (list Z)) :
  same_bars E1 E2 → degree v E1 = degree v E2.
Proof.
  intros H. rewrite <- (degree_undirected v E1), <- (degree_undirected v E2).
  unfold same_bars in H. unfold degree. by rewrite H.
Qed.

Lemma degree_pos (v : Z) (E : list (list Z)) :
  (0 < degree v E)%nat → v ∈ concat E.
Proof.
  induction E as [|e E IH]; [cbn; lia|].
  rewrite degree_cons. cbn [concat]. rewrite elem_of_app.
  destruct (decide (v ∈ e)); [by left|]. intros Hd. right. apply IH. lia.
Qed.

Lemma degree_bound_all (E : list (list Z)) :
  Forall (λ v, degree v E ≤ 2)%nat (concat E) → ∀ v, (degree v E ≤ 2)%nat.
Proof.
  intros H v. destruct (decide (0 < degree v E)%nat) as [Hpos|]; [|lia].
  apply degree_pos in Hpos. by eapply Forall_forall in H.
Qed.

Lemma degree_all_segments (v : Z) (p : list Z) (L : list (list Z)) :
  p ∈ L → (degree v (segments p) ≤ degree v (all_segments L))%nat.
Proof.
  intros Hp. apply list_elem_of_split in Hp as (L1 & L2 & ->).
  rewrite all_segments_app, all_segments_cons, !degree_app. lia.
Qed.

(** A point of a curve touches one of its bars; a point strictly inside
    touches two. *)
Lemma degree_on_curve (v : Z) (p : list Z) :
  is_curve p → v ∈ p → (1 ≤ degree v (segments p))%nat.
Proof.
  unfold is_curve. induction p as [|a p IH]; [cbn; lia|].
  destruct p as [|b p]; [cbn; lia|]. intros _ Hv.
  rewrite segments_cons2, degree_app, degree_cons.
  destruct (decide (v ∈ [a; b])) as [|Hn]; [lia|].
  rewrite !elem_of_cons in Hn. rewrite !elem_of_cons in Hv.
  destruct Hv as [->|[->|Hv]]; [tauto..|].
  destruct p as [|c p]; [by apply elem_of_nil in Hv|].
  assert (1 ≤ degree v (segments (b :: c :: p)))%nat; [|lia].
  apply IH; [cbn; lia|]. by right.
Qed.

Lemma interior_cons3 (a b c : Z) (p : list Z) :
  interior (a :: b :: c :: p) = b :: interior (b :: c :: p).
Proof. done. Qed.

Lemma degree_interior (v : Z) (p : list Z) :
  v ∈ interior p → (2 ≤ degree v (segments p))%nat.
Proof.
  induction p as [|a p IH]; [by intros ?%elem_of_nil|].
  destruct p as [|b p]; [by intros ?%elem_of_nil|].
  destruct p as [|c p]; [by intros ?%elem_of_nil|].
  rewrite interior_cons3, elem_of_cons.
  rewrite segments_cons2, degree_app. intros [->|Hv].
  - rewrite segments_cons2, degree_app, !degree_cons.
    rewrite !decide_True; [cbn; lia|rewrite !elem_of_cons; tauto..].
  - specialize (IH Hv). lia.
Qed.

Lemma on_curve_cases (v : Z) (p : list Z) :
  v ∈ p → head p = Some v ∨ last p = Some v ∨ v ∈ interior p.
Proof.
  induction p as [|a p IH]; [by intros ?%elem_of_nil|].
  rewrite elem_of_cons. intros [->|Hv]; [by left|].
  destruct p as [|b p]; [by apply elem_of_nil in Hv|].
  destruct p as [|c p].
  - apply list_elem_of_singleton in Hv as ->. by right; left.
  - rewrite interior_cons3, last_cons_cons.
    destruct (IH Hv) as [[= ->]|[Hl|Hi]].
    + right; right. by left.
    + by right; left.
    + right; right. by right.
Qed.

(** ** Curves of a settled list share no point *)

Lemma settled_separate (L : list (list Z)) :
  settled L → Forall is_curve L →
  (∀ v, degree v (all_segments L) ≤ 2)%nat → separate L.
Proof.
  induction L as [|p L IH]; [done|].
  intros [Hp Hs] HL Hdeg. apply Forall_cons in HL as [Hcp HL].
  cbn [separate]. split.
  - apply Forall_forall. intros q Hq v Hvp Hvq.
    eapply Forall_forall in Hp; [|exact Hq]. cbn beta in Hp.
    apply join_None in Hp as (H1 & H2 & H3 & H4).
    specialize (Hdeg v). rewrite all_segments_cons, degree_app in Hdeg.
    pose proof (degree_all_segments v q L Hq) as Hq'.
    pose proof (degree_on_curve v p Hcp Hvp) as Hp1.
    eapply Forall_forall in HL; [|exact Hq].
    pose proof (degree_on_curve v q HL Hvq) as Hq1.
    destruct (on_curve_cases v p Hvp) as [Ep|[Ep|Ep%degree_interior]]; [| |lia];
      (destruct (on_curve_cases v q Hvq) as [Eq|[Eq|Eq%degree_interior]]; [| |lia]);
      congruence.
  - apply IH; [done..|]. intros v. specialize (Hdeg v).
    rewrite all_segments_cons, degree_app in Hdeg. lia.
Qed.

Lemma separate_same (P : list (list Z)) (p q : list Z) (v : Z) :
  separate P → p ∈ P → q ∈ P → v ∈ p → v ∈ q → p = q.
Proof.
  induction P as [|c P IH]; [by intros _ ?%elem_of_nil|].
  intros [Hc Hs]. rewrite !elem_of_cons. rewrite Forall_forall in Hc.
  intros [->|Hp] [->|Hq] Hvp Hvq; [done| | |by apply IH].
  - by destruct (Hc q Hq v Hvp).
  - by destruct (Hc p Hp v Hvq).
Qed.

(** ** Bars of the input and bars of the output *)

Lemma segments_elem (e : list Z) (p : list Z) :
  e ∈ segments p → ∃ a b, e = [a; b] ∧ a ∈ p ∧ b ∈ p.
Proof.
  induction p as [|a p IH]; [by intros ?%elem_of_nil|].
  destruct p as [|b p]; [by intros ?%elem_of_nil|].
  rewrite segments_cons2, elem_of_app, list_elem_of_singleton.
  intros [->|He].
  - exists a, b. rewrite !elem_of_cons. tauto.
  - destruct (IH He) as (a' & b' & -> & Ha & Hb).
    exists a', b'. rewrite (elem_of_cons _ a'), (elem_of_cons _ b'). tauto.
Qed.

Lemma elem_of_all_segments (e : list Z) (P : list (list Z)) :
  e ∈ all_segments P ↔ ∃ p, p ∈ P ∧ e ∈ segments p.
Proof.
  unfold all_segments. rewrite list_elem_of_In, in_concat. split.
  - intros (s & Hs & He). apply list_elem_of_In, list_elem_of_fmap in Hs as (p & -> & Hp).
    exists p. split; [done|by apply list_elem_of_In].
  - intros (p & Hp & He). exists (segments p). split; [|by apply list_elem_of_In].
    apply list_elem_of_In, list_elem_of_fmap. by exists p.
Qed.

Lemma undirected_eq (a b c d : Z) :
  undirected [a; b] = undirected [c; d] → (a = c ∧ b = d) ∨ (a = d ∧ b = c).
Proof. cbn. intros [= H1 H2]. lia. Qed.

Lemma same_bars_elem (B E : list (list Z)) (a b : Z) :
  same_bars B E → bar_list E → [a; b] ∈ B → [a; b] ∈ E ∨ [b; a] ∈ E.
Proof.
  intros Hb HE Hab.
  assert (undirected [a; b] ∈ undirected <$> E) as Hu.
  { unfold same_bars in Hb. rewrite <- Hb. apply list_elem_of_fmap. by exists [a; b]. }
  apply list_elem_of_fmap in Hu as (e & He & HeE).
  eapply Forall_forall in HE as Hlen; [|exact HeE]. cbn beta in Hlen.
  destruct e as [|c [|d [|??]]]; try done.
  apply undirected_eq in He as [[-> ->]|[-> ->]]; [by left|by right].
Qed.

Lemma bar_list_all_segments (P : list (list Z)) : bar_list (all_segments P).
Proof.
  unfold bar_list. apply Forall_forall. intros e He.
  apply elem_of_all_segments in He as (p & _ & He).
  by apply segments_elem in He as (a & b & -> & _).
Qed.

Lemma output_bar_adjacent (P E : list (list Z)) (p : list Z) (a b : Z) :
  same_bars (all_segments P) E → bar_list E →
  p ∈ P → [a; b] ∈ segments p → adjacent E a b.
Proof.
  intros Hb HE Hp Hab. eapply same_bars_elem; [exact Hb|done|].
  apply elem_of_all_segments. by exists p.
Qed.

Lemma input_bar_on_curve (P E : list (list Z)) (a b : Z) :
  same_bars (all_segments P) E → adjacent E a b →
  ∃ p, p ∈ P ∧ a ∈ p ∧ b ∈ p.
Proof.
  intros Hb Hab. symmetry in Hb.
  assert ([a; b] ∈ all_segments P ∨ [b; a] ∈ all_segments P) as Hin.
  { destruct Hab as [Hab|Hab].
    - by apply (same_bars_elem E); [|apply bar_list_all_segments|].
    - apply or_comm. by apply (same_bars_elem E); [|apply bar_list_all_segments|]. }
  destruct Hin as [Hin|Hin];
    apply elem_of_all_segments in Hin as (p & Hp & Hs);
    apply segments_elem in Hs as (a' & b' & [= <- <-] & Ha & Hb');
    by exists p.
Qed.

(** ** Paths *)

Lemma adjacent_sym (E : list (list Z)) (u v : Z) : adjacent E u v → adjacent E v u.
Proof. unfold adjacent. tauto. Qed.

Lemma adjacent_in_graph (E : list (list Z)) (u v : Z) :
  adjacent E u v → u ∈ concat E ∧ v ∈ concat E.
Proof.
  assert (∀ a b, [a; b] ∈ E → a ∈ concat E ∧ b ∈ concat E) as H.
  { intros a b Hab. rewrite !list_elem_of_In, !in_concat.
    split; exists [a; b]; (split; [by apply list_elem_of_In|]); cbn; tauto. }
  intros [Huv|Hvu]; [by apply H|]. apply and_comm. by apply H.
Qed.

Lemma rtc_adjacent_sym (E : list (list Z)) (u v : Z) :
  rtc (adjacent E) u v → rtc (adjacent E) v u.
Proof.
  induction 1 as [|u w v Huw _ IH]; [done|].
  eapply rtc_r; [exact IH|]. by apply adjacent_sym.
Qed.

Lemma path_from_head (E : list (list Z)) (p : list Z) (h u : Z) :
  (∀ a b, [a; b] ∈ segments p → adjacent E a b) →
  head p = Some h → u ∈ p → rtc (adjacent E) h u.
Proof.
  revert h. induction p as [|a p IH]; intros h Hadj [= <-] Hu; [].
  apply elem_of_cons in Hu as [->|Hu]; [done|].
  destruct p as [|b p]; [by apply elem_of_nil in Hu|].
  eapply rtc_l.
  - apply Hadj. rewrite segments_cons2, elem_of_app, list_elem_of_singleton. by left.
  - apply IH; [|done|done]. intros c d Hcd. apply Hadj.
    rewrite segments_cons2, elem_of_app. by right.
Qed.

Lemma path_along_curve (E : list (list Z)) (p : list Z) (u v : Z) :
  (∀ a b, [a; b] ∈ segments p → adjacent E a b) →
  u ∈ p → v ∈ p → rtc (adjacent E) u v.
Proof.
  intros Hadj Hu Hv. destruct p as [|h p]; [by apply elem_of_nil in Hu|].
  etrans.
  - apply rtc_adjacent_sym. by eapply (path_from_head E (h :: p) h u).
  - by eapply (path_from_head E (h :: p) h v).
Qed.

Lemma points_to_FE (p : list Z) (u : Z) :
  is_curve p → u ∈ points (to_FE p) ↔ u ∈ p.
Proof.
  unfold is_curve, points, to_FE. cbn [row0 row1]. intros Hp.
  destruct p as [|a p]; [cbn in Hp; lia|].
  destruct (exists_last (l:=a :: p)) as (q & z & Hq); [done|].
  destruct p as [|b p]; [cbn in Hp; lia|].
  rewrite Hq at 1. rewrite removelast_last. cbn [tail].
  rewrite elem_of_app. split.
  - intros [Hu|Hu]; [|by apply elem_of_cons; right].
    rewrite Hq. apply elem_of_app. by left.
  - rewrite elem_of_cons. intros [->|Hu]; [|by right].
    left. destruct q as [|c q]; [done|]. injection Hq as <- _.
    apply elem_of_cons. by left.
Qed.

Lemma elem_of_to_FE (P : list (list Z)) (out : list ndarray2) (u v : Z) :
  Forall is_curve P → out = to_FE <$> P →
  same_curve out u v ↔ ∃ p, p ∈ P ∧ u ∈ p ∧ v ∈ p.
Proof.
  intros HP ->. unfold same_curve. split.
  - intros (a & Ha & Hu & Hv). apply list_elem_of_fmap in Ha as (p & -> & Hp).
    eapply Forall_forall in HP; [|exact Hp].
    exists p. by rewrite <- !(points_to_FE p) by done.
  - intros (p & Hp & Hu & Hv). exists (to_FE p).
    eapply Forall_forall in HP; [|exact Hp].
    rewrite !points_to_FE by done. split; [|done].
    apply list_elem_of_fmap. by exists p.
Qed.

Lemma in_graph_on_curve (P E : list (list Z)) (u : Z) :
  same_bars (all_segments P) E → bar_list E → u ∈ concat E →
  ∃ p, p ∈ P ∧ u ∈ p.
Proof.
  intros Hb HE Hu. apply list_elem_of_In, in_concat in Hu as (e & He & Hue).
  apply list_elem_of_In in He.
  eapply Forall_forall in HE as Hlen; [|exact He]. cbn beta in Hlen.
  destruct e as [|a [|b [|??]]]; try done.
  destruct (input_bar_on_curve P E a b Hb) as (p & Hp & Ha & Hb'); [by left|].
  exists p. split; [done|].
  cbn in Hue. destruct Hue as [<-|[<-|[]]]; done.
Qed.

Lemma connected_same_curve (P E : list (list Z)) (u v : Z) :
  same_bars (all_segments P) E → bar_list E → separate P →
  rtc (adjacent E) u v → u ∈ concat E → ∃ p, p ∈ P ∧ u ∈ p ∧ v ∈ p.
Proof.
  intros Hb HE Hsep Hrtc.
  induction Hrtc as [u|u w v Huw _ IH]; intros Hu.
  - destruct (in_graph_on_curve P E u Hb HE Hu) as (p & Hp & Hup). by exists p.
  - destruct (IH (proj2 (adjacent_in_graph E u w Huw))) as (q & Hq & Hwq & Hvq).
    destruct (input_bar_on_curve P E u w Hb Huw) as (p & Hp & Hup & Hwp).
    assert (p = q) as -> by by eapply (separate_same P p q w).
    by exists q.
Qed.

Lemma same_curve_connected (P E : list (list Z)) (p : list Z) (u v : Z) :
  same_bars (all_segments P) E → bar_list E → Forall is_curve P →
  p ∈ P → u ∈ p → v ∈ p → connected E u v.
Proof.
  intros Hb HE HP Hp Hu Hv. split.
  - apply (degree_pos u).
    rewrite <- (degree_same_bars u _ _ Hb).
    pose proof (degree_all_segments u p P Hp).
    eapply Forall_forall in HP; [|exact Hp].
    pose proof (degree_on_curve u p HP Hu). lia.
  - apply (path_along_curve E p); [|done..].
    intros a b Hab. by eapply output_bar_adjacent.
Qed.

(** ** Running the routine on its own output *)

Lemma absorb_app_None (o : list Z) (pre L : list (list Z)) :
  Forall (λ n, join o n = None) pre →
  absorb o (pre ++ L) = (pre ++.) <$> absorb o L.
Proof.
  induction 1 as [|n pre Hn Hpre IH]; cbn [app absorb].
  - by destruct (absorb o L).
  - rewrite Hn, IH. by destruct (absorb o L).
Qed.

Lemma join_bar_far (a b : Z) (d : list Z) :
  (∀ v, v ∈ [a; b] → v ∉ d) → join [a; b] d = None.
Proof.
  intros Hfar. apply join_None. unfold apart. cbn [head last].
  assert (a ∉ d) as Ha by (apply Hfar; solve_elem).
  assert (b ∉ d) as Hb by (apply Hfar; solve_elem).
  repeat split; intros Heq; symmetry in Heq;
    (apply head_Some_elem_of in Heq || apply last_Some_elem_of in Heq); done.
Qed.

Lemma stitch_extend (rest cur : list Z) (x h : Z) (tl done : list (list Z)) (k : bool) :
  head cur = Some h → h ∉ removelast (x :: rest) →
  Forall (λ d, ∀ v, v ∈ x :: rest → v ∉ d) done →
  stitch (segments (x :: rest) ++ tl) (done ++ [cur ++ [x]]) k =
  stitch tl (done ++ [cur ++ x :: rest]) (k || bool_decide (rest ≠ [])).
Proof.
  revert cur x k. induction rest as [|y rest IH]; intros cur x k Hh Hint Hfar.
  { cbn [segments app]. by rewrite orb_false_r. }
  rewrite segments_cons2. cbn [app stitch].
  change (removelast (x :: y :: rest)) with (x :: removelast (y :: rest)) in Hint.
  apply not_elem_of_cons in Hint as [Hhx Hint].
  rewrite absorb_app_None.
  2:{ eapply Forall_impl; [exact Hfar|]. intros d Hd. apply join_bar_far.
      intros v Hv. apply Hd. solve_elem. }
  assert (join [x; y] (cur ++ [x]) = Some (cur ++ [x; y])) as Hj.
  { unfold join. cbn [head].
    assert (head (cur ++ [x]) = Some h) as -> by by rewrite head_app, Hh.
    rewrite decide_False by congruence.
    rewrite last_snoc. rewrite decide_True by done.
    by rewrite removelast_last. }
  cbn [absorb]. rewrite Hj. cbn [fmap option_fmap option_map].
  replace (cur ++ [x; y]) with ((cur ++ [x]) ++ [y]) by by rewrite <- app_assoc.
  rewrite IH; [| |done|].
  - rewrite <- app_assoc. cbn [app orb]. by rewrite orb_true_r.
  - by rewrite head_app, Hh.
  - eapply Forall_impl; [exact Hfar|]. intros d Hd v Hv. apply Hd.
    apply elem_of_cons. by right.
Qed.

Lemma stitch_curve (q : list Z) (tl done : list (list Z)) (k : bool) :
  is_curve q → (∀ h, head q = Some h → h ∉ interior q) →
  Forall (λ d, ∀ v, v ∈ q → v ∉ d) done →
  ∃ k', stitch (segments q ++ tl) done k = stitch tl (done ++ [q]) k'.
Proof.
  intros Hq Hint Hfar. destruct q as [|w0 [|w1 rest]]; [cbv in Hq; lia..|].
  rewrite segments_cons2. cbn [app stitch].
  assert (absorb [w0; w1] done = None) as ->.
  { apply absorb_None. eapply Forall_impl; [exact Hfar|].
    intros d Hd. apply join_bar_far. intros v Hv. apply Hd. solve_elem. }
  eexists. apply (stitch_extend rest [w0] w1 w0); [done|by apply Hint|].
  eapply Forall_impl; [exact Hfar|]. intros d Hd v Hv. apply Hd.
  apply elem_of_cons. by right.
Qed.

Lemma stitch_curves (Q done : list (list Z)) (k : bool) :
  Forall is_curve Q → separate Q →
  Forall (λ q, ∀ h, head q = Some h → h ∉ interior q) Q →
  Forall (λ q, Forall (λ d, ∀ v, v ∈ q → v ∉ d) done) Q →
  ∃ k', stitch (all_segments Q) done k = (done ++ Q, k').
Proof.
  revert done k. induction Q as [|q Q IH]; intros done k HQ Hsep Hint Hfar.
  { exists k. cbn. by rewrite app_nil_r. }
  apply Forall_cons in HQ as [Hq HQ]. destruct Hsep as [Hqsep Hsep].
  apply Forall_cons in Hint as [Hqint Hint].
  apply Forall_cons in Hfar as [Hqfar Hfar].
  rewrite all_segments_cons.
  destruct (stitch_curve q (all_segments Q) done k Hq Hqint Hqfar) as [k1 ->].
  destruct (IH (done ++ [q]) k1 HQ Hsep Hint) as [k' Hk'].
  - apply Forall_forall. intros q' Hq'. apply Forall_app. split.
    + by eapply Forall_forall in Hfar.
    + constructor; [|done]. intros v Hv Hvq.
      eapply Forall_forall in Hqsep; [|exact Hq']. by apply (Hqsep v).
  - exists k'. rewrite Hk'. by rewrite <- app_assoc.
Qed.

Lemma pass_own_output (P : list (list Z)) :
  P ≠ [] → Forall is_curve P → separate P →
  Forall (λ q, ∀ h, head q = Some h → h ∉ interior q) P →
  ∃ k, pass (all_segments P) = Returns (P, k).
Proof.
  intros Hne HP Hsep Hint. destruct P as [|p P]; [done|].
  apply Forall_cons in HP as [Hp HP]. destruct Hsep as [Hpsep Hsep].
  apply Forall_cons in Hint as [Hpint Hint].
  pose proof (is_curve_nonempty _ (bar_list_is_curve _
                (bar_list_all_segments (p :: P)))) as Hbars.
  destruct p as [|v0 [|v1 rest]]; [cbv in Hp; lia..|].
  rewrite all_segments_cons, segments_cons2 in *. cbn [app] in *.
  rewrite pass_stitch by done.
  pose proof (stitch_extend rest [v0] v1 v0 (all_segments P) [] false
                eq_refl (Hpint v0 eq_refl) (Forall_nil_2 _)) as Hx.
  cbn [app] in Hx. rewrite Hx.
  destruct (stitch_curves P [v0 :: v1 :: rest]
              (false || bool_decide (rest ≠ [])) HP Hsep Hint) as [k' Hk'].
  - apply Forall_forall. intros q Hq. constructor; [|done].
    intros v Hvq Hvp. eapply Forall_forall in Hpsep; [|exact Hq].
    by apply (Hpsep v).
  - exists k'. by rewrite Hk'.
Qed.

Lemma proper_bar_undirected (e : list Z) : proper_bar (undirected e) ↔ proper_bar e.
Proof. destruct e as [|a [|b [|??]]]; try done. cbn. lia. Qed.

Lemma proper_bars_same (B E : list (list Z)) :
  same_bars B E → Forall proper_bar E → Forall proper_bar B.
Proof.
  unfold same_bars. intros Hb HE.
  assert (Forall proper_bar (undirected <$> B)) as HB.
  { rewrite Hb. rewrite Forall_fmap. eapply Forall_impl; [exact HE|].
    intros e. apply proper_bar_undirected. }
  rewrite Forall_fmap in HB. eapply Forall_impl; [exact HB|].
  intros e. apply proper_bar_undirected.
Qed.

Lemma head_not_interior (p : list Z) (h : Z) :
  Forall proper_bar (segments p) → (degree h (segments p) ≤ 2)%nat →
  head p = Some h → h ∉ interior p.
Proof.
  intros Hprop Hdeg Hh Hin.
  destruct p as [|a [|b [|c p]]]; try by apply elem_of_nil in Hin.
  injection Hh as ->.
  rewrite interior_cons3 in Hin. rewrite segments_cons2 in Hprop, Hdeg.
  cbn [app] in Hprop. apply Forall_cons in Hprop as [Hab _]. cbn in Hab.
  apply elem_of_cons in Hin as [->|Hin]; [congruence|].
  apply degree_interior in Hin.
  rewrite degree_app, degree_cons in Hdeg.
  rewrite decide_True in Hdeg by (apply elem_of_cons; by left).
  change (degree h []) with 0%nat in Hdeg. lia.
Qed.

Lemma FEsort_own_output (P : list (list Z)) :
  P ≠ [] → Forall is_curve P → separate P →
  Forall (λ q, ∀ h, head q = Some h → h ∉ interior q) P →
  pass P = Returns (P, false) → exact_ids P →
  FEsort (all_segments P) = Returns (Some (to_FE <$> P)).
Proof.
  intros Hne HP Hsep Hint Hfix Hex.
  destruct (pass_own_output P Hne HP Hsep Hint) as [k Hk].
  apply FEsort_fuel_Returns; [|by apply is_curve_nonempty|done].
  assert (while_keep_searching 2 (all_segments P) = Returns P) as H2.
  { cbn [while_keep_searching]. rewrite Hk. cbn. destruct k; [|done].
    rewrite Hfix. done. }
  eapply while_keep_searching_mono; [|exact H2].
  destruct P as [|[|a [|b p]] P]; [done|apply Forall_cons in HP as [Hp _]; cbv in Hp; lia..|].
  rewrite all_segments_cons, segments_cons2. cbn [app length]. lia.
Qed.

(** ** Counting bars *)

Lemma valid_bar_list (E : list (list Z)) : Forall proper_bar E → bar_list E.
Proof.
  intros H. eapply Forall_impl; [exact H|].
  intros e He. by destruct e as [|a [|b [|??]]].
Qed.

Lemma occurrences_fmap (e : list Z) (B : list (list Z)) :
  occurrences e B = length (filter (λ u, u = undirected e) (undirected <$> B)).
Proof.
  unfold occurrences. induction B as [|b B IH]; [done|].
  rewrite fmap_cons, !filter_cons. repeat case_decide; try done; cbn; by rewrite IH.
Qed.

Lemma occurrences_same_bars (e : list Z) (B E : list (list Z)) :
  same_bars B E → occurrences e B = occurrences e E.
Proof. unfold same_bars. intros H. rewrite !occurrences_fmap. by rewrite H. Qed.

Lemma count_absent (x : list Z) (l : list (list Z)) :
  x ∉ l → length (filter (λ u, u = x) l) = 0%nat.
Proof.
  induction l as [|y l IH]; [done|].
  rewrite not_elem_of_cons, filter_cons. intros [Hxy Hx].
  rewrite decide_False by congruence. by apply IH.
Qed.

Lemma NoDup_count_1 (x : list Z) (l : list (list Z)) :
  NoDup l → x ∈ l → length (filter (λ u, u = x) l) = 1%nat.
Proof.
  induction 1 as [|y l Hy Hl IH]; [by intros ?%elem_of_nil|].
  rewrite filter_cons, elem_of_cons. intros Hx. case_decide as Hyx.
  - subst y. cbn [length]. f_equal. by apply count_absent.
  - destruct Hx as [->|Hx]; [done|]. by apply IH.
Qed.

Lemma occurrences_once (e : list Z) (E : list (list Z)) :
  NoDup (undirected <$> E) → undirected e ∈ undirected <$> E →
  occurrences e E = 1%nat.
Proof. intros Hnd He. rewrite occurrences_fmap. by apply NoDup_count_1. Qed.

(** ** The caller's failure check *)

Lemma FEsort_not_None (barsConn : list (list Z)) : FEsort barsConn ≠ Returns None.
Proof.
  unfold FEsort, FEsort_fuel.
  destruct (while_keep_searching _ _) as [P|e|]; cbn; [|done..].
  destruct (alloc_FE P) as [fe|e|]; cbn; [|done..].
  by destruct (fill_FE P fe).
Qed.

Lemma curve_section_sorted (slice : list (list Z)) (entry : barsConn_entry)
    (warned : bool) :
  curve_section slice = Returns (entry, warned) →
  warned = false ∧ ∃ out sortedConn,
    FEsort slice = Returns (Some out) ∧
    np_array_T out = Returns sortedConn ∧ entry = SortedConn sortedConn.
Proof.
  unfold curve_section. pose proof (FEsort_not_None slice) as Hnone.
  destruct (FEsort slice) as [[out|]|e|]; cbn [mbind outcome_bind obind]; [|done..].
  destruct (np_array_T out) as [a|e|] eqn:Ha; cbn [obind]; [|done..].
  intros [= <- <-]. split; [done|]. by exists out, a.
Qed.

(** ** Properties of [FEsort] *)

(** C1 (edge conservation).  For a valid edge set [E] (bars with two
    distinct end points, no bar twice, no point on more than two bars)
    whose point ids the float64 arrays of the result hold as they are, the
    bars of the arrays returned by [FEsort E], taken without their
    direction, are exactly the bars of [E] as a multiset: every input bar
    occurs once in the whole output, hence on one curve only, and every
    output bar is an input bar.  Arrays are returned whenever [E] is not
    empty. *)
Theorem FEsort_edge_conservation (E : list (list Z)) :
  valid_edges E → exact_ids E →
  (E ≠ [] → ∃ out, FEsort E = Returns (Some out)) ∧
  ∀ out, FEsort E = Returns (Some out) →
    same_bars (bars out) E ∧
    (∀ e, e ∈ E → occurrences e (bars out) = 1%nat) ∧
    (∀ e, e ∈ bars out → occurrences e E = 1%nat).
Proof.
  intros [Hprop Hnd Hdeg] Hex.
  pose proof (λ Hne, FEsort_returns E (valid_bar_list E Hprop) Hne Hex) as Hret.
  split; [intros Hne; destruct (Hret Hne) as (out & Hout & _); by exists out|].
  intros out Hout.
  assert (E ≠ []) as Hne by (intros ->; discriminate Hout).
  destruct (Hret Hne) as (out' & Hout' & Hb).
  rewrite Hout in Hout'. injection Hout' as <-.
  split; [done|]. split.
  - intros e He. rewrite (occurrences_same_bars e _ _ Hb).
    apply occurrences_once; [done|]. apply list_elem_of_fmap. by exists e.
  - intros e He. apply occurrences_once; [done|].
    unfold same_bars in Hb. rewrite <- Hb. apply list_elem_of_fmap. by exists e.
Qed.

Lemma FEsort_edge_conservation_witness :
  valid_edges [[4; 5]; [1; 2]; [3; 1]; [5; 6]; [2; 3]] ∧
  exact_ids [[4; 5]; [1; 2]; [3; 1]; [5; 6]; [2; 3]] ∧
  ([[4; 5]; [1; 2]; [3; 1]; [5; 6]; [2; 3]] ≠ [] →
   ∃ out, FEsort [[4; 5]; [1; 2]; [3; 1]; [5; 6]; [2; 3]] = Returns (Some out)) ∧
  ∀ out, FEsort [[4; 5]; [1; 2]; [3; 1]; [5; 6]; [2; 3]] = Returns (Some out) →
    same_bars (bars out) [[4; 5]; [1; 2]; [3; 1]; [5; 6]; [2; 3]] ∧
    (∀ e, e ∈ [[4; 5]; [1; 2]; [3; 1]; [5; 6]; [2; 3]] →
          occurrences e (bars out) = 1%nat) ∧
    (∀ e, e ∈ bars out →
          occurrences e [[4; 5]; [1; 2]; [3; 1]; [5; 6]; [2; 3]] = 1%nat).
Proof.
  split; [concrete_bars|]. split; [concrete_bars|].
  apply (FEsort_edge_conservation [[4; 5]; [1; 2]; [3; 1]; [5; 6]; [2; 3]]);
    concrete_bars.
Defined.

(** C2 (connectivity).  For a list of bars in which no point lies on more
    than two bars, with point ids that the float64 arrays of the result
    hold as they are, two points are on the same returned curve exactly
    when a path of input bars joins them; curves are returned whenever the
    list is not empty.  In particular the two separate bars (5,6) and (7,8)
    come back as two curves, in the order met. *)
Theorem FEsort_connectivity (E : list (list Z)) :
  bar_list E → Forall (λ v, degree v E ≤ 2)%nat (concat E) → exact_ids E →
  (E ≠ [] → ∃ out, FEsort E = Returns (Some out)) ∧
  (∀ out, FEsort E = Returns (Some out) →
     ∀ u v, same_curve out u v ↔ connected E u v) ∧
  FEsort [[5; 6]; [7; 8]] = Returns (Some [Ndarray2 [5] [6]; Ndarray2 [7] [8]]).
Proof.
  intros HE Hdeg Hex.
  split; [intros Hne; destruct (FEsort_returns E HE Hne Hex) as (out & Hout & _);
          by exists out|].
  split; [|done]. intros out Hout.
  assert (E ≠ []) as Hne by (intros ->; discriminate Hout).
  destruct (FEsort_spec E HE Hne Hex) as (P & _ & Hout' & HP & _ & Hb & _ & Hset).
  rewrite Hout in Hout'. injection Hout' as ->. intros u v.
  rewrite (elem_of_to_FE P) by done.
  assert (separate P) as Hsep.
  { apply settled_separate; [done..|]. intros w.
    rewrite (degree_same_bars w _ _ Hb). by apply degree_bound_all. }
  split.
  - intros (p & Hp & Hu & Hv). by eapply same_curve_connected.
  - intros [Hu Hpath]. by eapply connected_same_curve.
Qed.

Lemma FEsort_connectivity_witness :
  ([[5; 6]; [7; 8]; [6; 9]] ≠ [] →
   ∃ out, FEsort [[5; 6]; [7; 8]; [6; 9]] = Returns (Some out)) ∧
  (∀ out, FEsort [[5; 6]; [7; 8]; [6; 9]] = Returns (Some out) →
     ∀ u v, same_curve out u v ↔ connected [[5; 6]; [7; 8]; [6; 9]] u v) ∧
  FEsort [[5; 6]; [7; 8]] = Returns (Some [Ndarray2 [5] [6]; Ndarray2 [7] [8]]).
Proof.
  apply (FEsort_connectivity [[5; 6]; [7; 8]; [6; 9]]); concrete_bars.
Defined.

(** C3 (empty input), as the code has it.  On the empty list the first
    [pop(0)] raises [IndexError]: nothing is returned, whatever the step
    bound, and the caller's loop body fails with the same exception. *)
Theorem FEsort_empty_raises :
  FEsort [] = Raises IndexError ∧
  (∀ fuel, FEsort_fuel (S fuel) [] = Raises IndexError) ∧
  curve_section [] = Raises IndexError.
Proof. repeat split. Qed.

(** The claim of C3 as stated fails: no output collection comes back for
    the empty list. *)
Lemma FEsort_empty_no_output : ¬ ∃ out, FEsort [] = Returns out.
Proof. intros [out Hout]. discriminate Hout. Qed.

(** C4 (branch points), as the code has it.  A list of bars with a point on
    three or more bars (point ids that the float64 arrays hold as they
    are) is stitched like any other: the routine returns its curves, which
    hold every input bar once, so that the point has the same degree in the
    output as in the input.  What is returned is the list of arrays and
    nothing else; it is never [None], so the caller goes on to put the
    arrays into one array and never takes its failure branch. *)
Theorem FEsort_branch_best_effort (E : list (list Z)) (v : Z) :
  bar_list E → E ≠ [] → exact_ids E → (3 ≤ degree v E)%nat →
  ∃ out, FEsort E = Returns (Some out) ∧
    same_bars (bars out) E ∧
    degree v (bars out) = degree v E ∧
    curve_section E =
      (sortedConn ← np_array_T out; Returns (SortedConn sortedConn, false)) ∧
    ∀ entry warned, curve_section E = Returns (entry, warned) →
      warned = false ∧ ∃ sortedConn, entry = SortedConn sortedConn.
Proof.
  intros HE Hne Hex _.
  destruct (FEsort_returns E HE Hne Hex) as (out & Hout & Hb).
  exists out. split; [done|]. split; [done|]. split; [by apply degree_same_bars|].
  assert (curve_section E =
            (sortedConn ← np_array_T out; Returns (SortedConn sortedConn, false)))
    as Hcs by (unfold curve_section; by rewrite Hout).
  split; [done|]. intros entry warned. rewrite Hcs.
  destruct (np_array_T out) as [a|e|]; cbn [mbind outcome_bind obind]; [|done..].
  intros [= <- <-]. split; [done|]. by exists a.
Qed.

Lemma FEsort_branch_best_effort_witness :
  (3 ≤ degree 1 [[1; 2]; [1; 3]; [1; 4]]%Z)%nat ∧
  ∃ out, FEsort [[1; 2]; [1; 3]; [1; 4]] = Returns (Some out) ∧
    same_bars (bars out) [[1; 2]; [1; 3]; [1; 4]] ∧
    degree 1 (bars out) = degree 1 [[1; 2]; [1; 3]; [1; 4]] ∧
    curve_section [[1; 2]; [1; 3]; [1; 4]] =
      (sortedConn ← np_array_T out; Returns (SortedConn sortedConn, false)) ∧
    ∀ entry warned, curve_section [[1; 2]; [1; 3]; [1; 4]] = Returns (entry, warned) →
      warned = false ∧ ∃ sortedConn, entry = SortedConn sortedConn.
Proof.
  split; [vm_compute; lia|].
  apply (FEsort_branch_best_effort [[1; 2]; [1; 3]; [1; 4]] 1);
    [concrete_bars|concrete_bars|concrete_bars|vm_compute; lia].
Defined.

(** The claim of C4 as stated fails on the bars (1,2), (1,3), (1,4): point 1
    lies on three bars, yet the value returned is the bare list of the two
    curves [3,1,2] and [1,4], with no flag and no branch points beside it.
    The caller does not get a failure signal either: the two arrays differ
    in length, and putting them into one array raises [ValueError]. *)
Lemma FEsort_branch_not_flagged :
  degree 1 [[1; 2]; [1; 3]; [1; 4]] = 3%nat ∧
  FEsort [[1; 2]; [1; 3]; [1; 4]] =
    Returns (Some [Ndarray2 [3; 1] [1; 2]; Ndarray2 [1] [4]]) ∧
  curve_section [[1; 2]; [1; 3]; [1; 4]] = Raises ValueError.
Proof. repeat split. Qed.

(** C5 (bars out of order), as the code has it.  On (1,2), (3,4), (2,3) the
    routine returns the single curve [1,2,3,4].  The bar that matches
    nothing when first seen is (3,4); the bar (2,3) is linked to [1,2] as
    soon as it is seen, in the first pass, and the second pass merges
    [3,4] into [1,2,3]. *)
Theorem FEsort_out_of_order :
  FEsort [[1; 2]; [3; 4]; [2; 3]] = Returns (Some [Ndarray2 [1; 2; 3] [2; 3; 4]]) ∧
  FEsort_curves [[1; 2]; [3; 4]; [2; 3]] = Returns [[1; 2; 3; 4]] ∧
  for_newElement [3; 4] [[1; 2]] [[1; 2]] 0 = Returns None ∧
  pass [[1; 2]; [3; 4]; [2; 3]] = Returns ([[1; 2; 3]; [3; 4]], true) ∧
  pass [[1; 2; 3]; [3; 4]] = Returns ([[1; 2; 3; 4]], true) ∧
  pass [[1; 2; 3; 4]] = Returns ([[1; 2; 3; 4]], false).
Proof. repeat split. Qed.

(** The claim of C5 as stated fails in its account of the run: when (2,3)
    is popped the working curves are [1,2] and [3,4], and the [for] loop
    links it at once. *)
Lemma FEsort_middle_bar_linked_at_once :
  while_oldConn [[3; 4]; [2; 3]] [[1; 2]] false =
    while_oldConn [[2; 3]] [[1; 2]; [3; 4]] false ∧
  for_newElement [2; 3] [[1; 2]; [3; 4]] [[1; 2]; [3; 4]] 0 =
    Returns (Some [[1; 2; 3]; [3; 4]]) ∧
  for_newElement [2; 3] [[1; 2]; [3; 4]] [[1; 2]; [3; 4]] 0 ≠ Returns None.
Proof. repeat split. discriminate. Qed.

(** C6 (closed loop).  On (1,2), (2,3), (3,1) the routine returns one curve,
    [1,2,3,1] as point ids: its head and its tail are both point 1, the
    test comparing them tells it closed, and its bars are the three input
    bars. *)
Theorem FEsort_closed_loop :
  FEsort [[1; 2]; [2; 3]; [3; 1]] = Returns (Some [Ndarray2 [1; 2; 3] [2; 3; 1]]) ∧
  FEsort_curves [[1; 2]; [2; 3]; [3; 1]] = Returns [[1; 2; 3; 1]] ∧
  FE_head (Ndarray2 [1; 2; 3] [2; 3; 1]) = Some 1 ∧
  FE_tail (Ndarray2 [1; 2; 3] [2; 3; 1]) = Some 1 ∧
  closed (Ndarray2 [1; 2; 3] [2; 3; 1]) = true ∧
  columns (Ndarray2 [1; 2; 3] [2; 3; 1]) = [[1; 2]; [2; 3]; [3; 1]] ∧
  (∀ a, closed a = true ↔ is_Some (FE_head a) ∧ FE_head a = FE_tail a).
Proof.
  split_and!; try done.
  intros a. unfold closed. apply bool_decide_eq_true.
Qed.

(** C7 (malformed input), as the code has it.  The routine checks nothing
    about its input: a non-empty list of two-point elements that is not a
    valid edge set (a bar with equal end points, a bar given twice, a point
    on three bars) is stitched and returned like any other, with every
    element kept as a bar of the output (the point ids being such that the
    float64 arrays hold them as they are). *)
Theorem FEsort_no_validation (E : list (list Z)) :
  bar_list E → E ≠ [] → exact_ids E → ¬ valid_edges E →
  ∃ out, FEsort E = Returns (Some out) ∧ same_bars (bars out) E.
Proof. intros HE Hne Hex _. by apply FEsort_returns. Qed.

Lemma FEsort_no_validation_witness :
  ¬ valid_edges [[1; 1]; [1; 2]; [2; 1]] ∧
  ∃ out, FEsort [[1; 1]; [1; 2]; [2; 1]] = Returns (Some out) ∧
    same_bars (bars out) [[1; 1]; [1; 2]; [2; 1]].
Proof.
  assert (¬ valid_edges [[1; 1]; [1; 2]; [2; 1]]) as Hbad.
  { intros [Hprop _ _]. apply Forall_cons in Hprop as [Hloop _]. by apply Hloop. }
  split; [exact Hbad|].
  apply (FEsort_no_validation [[1; 1]; [1; 2]; [2; 1]]);
    [concrete_bars|concrete_bars|concrete_bars|exact Hbad].
Defined.

(** The claim of C7 as stated fails: a self-loop, a bar given twice and an
    element naming a single point are all accepted, and curves come back. *)
Lemma FEsort_accepts_malformed :
  FEsort [[1; 1]] = Returns (Some [Ndarray2 [1] [1]]) ∧
  FEsort [[1; 2]; [1; 2]] = Returns (Some [Ndarray2 [2; 1] [1; 2]]) ∧
  FEsort [[7]] = Returns (Some [Ndarray2 [] []]).
Proof. repeat split. Qed.

(** C8 (termination).  On a non-empty list of bars the loops come to an
    end with the same curves for every step bound that is at least the
    number of bars, so the routine comes to an end independently of the
    bound: it returns a list of arrays, or it leaves with [OverflowError]
    from the store into a float64 array, and it does return whenever the
    point ids have a float64 value (every integer a machine word holds has
    one).  The reason is the one given: a pass over a non-empty working list of
    curves either sets [keep_searching], and then hands a strictly shorter
    list to the next pass, or leaves it cleared, and then the outer loop
    ends with the list unchanged. *)
Theorem FEsort_terminates (barsConn : list (list Z)) :
  barsConn ≠ [] → bar_list barsConn →
  (∃ newConn, ∀ fuel, (length barsConn ≤ fuel)%nat →
     while_keep_searching fuel barsConn = Returns newConn) ∧
  (∀ fuel, (length barsConn ≤ fuel)%nat →
     FEsort_fuel fuel barsConn = FEsort barsConn) ∧
  ((∃ out, FEsort barsConn = Returns (Some out)) ∨
   FEsort barsConn = Raises OverflowError) ∧
  (Forall (Forall fits_double) barsConn →
   ∃ out, FEsort barsConn = Returns (Some out) ∧
     ∀ fuel, (length barsConn ≤ fuel)%nat →
       FEsort_fuel fuel barsConn = Returns (Some out)) ∧
  (∀ newConn, newConn ≠ [] → Forall is_curve newConn →
     ∃ newConn' keep_searching,
       pass newConn = Returns (newConn', keep_searching) ∧
       newConn' ≠ [] ∧ Forall is_curve newConn' ∧
       if keep_searching then (length newConn' < length newConn)%nat
       else newConn' = newConn ∧
            ∀ fuel, while_keep_searching (S fuel) newConn = Returns newConn).
Proof.
  intros Hne HE.
  destruct (FEsort_fuel_any barsConn (bar_list_is_curve _ HE) Hne)
    as (P & Hloops & HP & _ & Hfit & Hcases).
  assert (∀ fuel, (length barsConn ≤ fuel)%nat →
            FEsort_fuel fuel barsConn = FEsort barsConn) as Hsame.
  { intros fuel Hfuel. unfold FEsort, FEsort_fuel.
    by rewrite !Hloops by lia. }
  split; [by exists P|]. split; [done|]. split.
  { unfold FEsort.
    destruct (Hcases (S (length barsConn))) as [Hr|[Hr _]]; [lia| |by right].
    left. by eexists. }
  split.
  - intros Hfits. exists (to_FE <$> (fmap (M:=list) stored <$> P)).
    assert (FEsort barsConn =
              Returns (Some (to_FE <$> (fmap (M:=list) stored <$> P)))) as Hout.
    { apply FEsort_fuel_fits; [apply Hloops; lia|by apply is_curve_nonempty|].
      by apply Hfit. }
    split; [done|]. intros fuel Hfuel. by rewrite Hsame.
  - intros L HLne HL.
    destruct (pass_spec L HL HLne) as (L' & k & Hp & HL' & Hne' & _ & Hlt & Hfix).
    exists L', k. split; [done|]. split; [done|]. split; [done|].
    destruct k; [by apply Hlt|].
    destruct (Hfix eq_refl) as [-> _]. split; [done|].
    intros fuel. cbn [while_keep_searching]. by rewrite Hp.
Qed.

Lemma FEsort_terminates_witness :
  (∃ newConn, ∀ fuel, (length [[2; 3]; [5; 6]; [3; 4]; [5; 4]] ≤ fuel)%nat →
     while_keep_searching fuel [[2; 3]; [5; 6]; [3; 4]; [5; 4]] = Returns newConn) ∧
  (∀ fuel, (length [[2; 3]; [5; 6]; [3; 4]; [5; 4]] ≤ fuel)%nat →
     FEsort_fuel fuel [[2; 3]; [5; 6]; [3; 4]; [5; 4]] =
     FEsort [[2; 3]; [5; 6]; [3; 4]; [5; 4]]) ∧
  ((∃ out, FEsort [[2; 3]; [5; 6]; [3; 4]; [5; 4]] = Returns (Some out)) ∨
   FEsort [[2; 3]; [5; 6]; [3; 4]; [5; 4]] = Raises OverflowError) ∧
  (Forall (Forall fits_double) [[2; 3]; [5; 6]; [3; 4]; [5; 4]] →
   ∃ out, FEsort [[2; 3]; [5; 6]; [3; 4]; [5; 4]] = Returns (Some out) ∧
     ∀ fuel, (length [[2; 3]; [5; 6]; [3; 4]; [5; 4]] ≤ fuel)%nat →
       FEsort_fuel fuel [[2; 3]; [5; 6]; [3; 4]; [5; 4]] = Returns (Some out)) ∧
  (∀ newConn, newConn ≠ [] → Forall is_curve newConn →
     ∃ newConn' keep_searching,
       pass newConn = Returns (newConn', keep_searching) ∧
       newConn' ≠ [] ∧ Forall is_curve newConn' ∧
       if keep_searching then (length newConn' < length newConn)%nat
       else newConn' = newConn ∧
            ∀ fuel, while_keep_searching (S fuel) newConn = Returns newConn).
Proof.
  apply (FEsort_terminates [[2; 3]; [5; 6]; [3; 4]; [5; 4]]); concrete_bars.
Defined.

(** C9 (idempotence).  For a valid edge set whose point ids the float64
    arrays hold as they are, the bars read off the returned arrays, curve
    by curve, are sorted by the routine into the very same arrays: same
    curves, same order, same direction.  Arrays are returned whenever the
    edge set is not empty. *)
Theorem FEsort_idempotent (E : list (list Z)) :
  valid_edges E → exact_ids E →
  (E ≠ [] → ∃ out, FEsort E = Returns (Some out)) ∧
  ∀ out, FEsort E = Returns (Some out) →
    FEsort (bars out) = Returns (Some out).
Proof.
  intros [Hprop Hnd Hdeg] Hex.
  pose proof (valid_bar_list E Hprop) as HE.
  split; [intros Hne; destruct (FEsort_returns E HE Hne Hex) as (out & Hout & _);
          by exists out|].
  intros out Hout.
  assert (E ≠ []) as Hne by (intros ->; discriminate Hout).
  destruct (FEsort_spec E HE Hne Hex)
    as (P & Hcurves & Hout' & HP & HPne & Hb & Hfix & Hset).
  rewrite Hout in Hout'. injection Hout' as ->.
  rewrite bars_to_FE.
  assert (∀ w, degree w (all_segments P) ≤ 2)%nat as HdegP.
  { intros w. rewrite (degree_same_bars w _ _ Hb). by apply degree_bound_all. }
  apply FEsort_own_output; [done|done| | |done|].
  - by apply settled_separate.
  - apply Forall_forall. intros q Hq h Hh.
    apply head_not_interior; [| |done].
    + pose proof (proper_bars_same _ _ Hb Hprop) as Hall.
      apply Forall_forall. intros e He.
      eapply Forall_forall in Hall; [exact Hall|].
      apply elem_of_all_segments. by exists q.
    + pose proof (degree_all_segments h q P Hq). specialize (HdegP h). lia.
  - by eapply (while_keep_searching_keeps exact_id);
      [apply is_curve_nonempty, bar_list_is_curve| |exact Hcurves].
Qed.

Lemma FEsort_idempotent_witness :
  valid_edges [[4; 5]; [1; 2]; [3; 1]; [5; 6]; [2; 3]] ∧
  ([[4; 5]; [1; 2]; [3; 1]; [5; 6]; [2; 3]] ≠ [] →
   ∃ out, FEsort [[4; 5]; [1; 2]; [3; 1]; [5; 6]; [2; 3]] = Returns (Some out)) ∧
  ∀ out, FEsort [[4; 5]; [1; 2]; [3; 1]; [5; 6]; [2; 3]] = Returns (Some out) →
    FEsort (bars out) = Returns (Some out).
Proof.
  split; [concrete_bars|].
  apply (FEsort_idempotent [[4; 5]; [1; 2]; [3; 1]; [5; 6]; [2; 3]]);
    concrete_bars.
Defined.

(** C10 (no [None]).  Whatever its input, [FEsort] does not return [None],
    and whenever the caller's loop body completes it has stored the array
    made of the sorted curves without printing the message: the fallback
    branch is dead.  On a non-empty list of bars whose point ids have a
    float64 value (as every integer that an integer array holds has) the
    call does return, with a list of arrays, which the caller goes on to
    put into one array. *)
Theorem FEsort_never_None (barsConn : list (list Z)) :
  FEsort barsConn ≠ Returns None ∧
  (∀ entry warned, curve_section barsConn = Returns (entry, warned) →
     warned = false ∧ ∃ out sortedConn,
       FEsort barsConn = Returns (Some out) ∧
       np_array_T out = Returns sortedConn ∧ entry = SortedConn sortedConn) ∧
  (barsConn ≠ [] → bar_list barsConn → Forall (Forall fits_double) barsConn →
     ∃ out, FEsort barsConn = Returns (Some out) ∧
       curve_section barsConn =
         (sortedConn ← np_array_T out; Returns (SortedConn sortedConn, false))).
Proof.
  split; [apply FEsort_not_None|]. split.
  - apply curve_section_sorted.
  - intros Hne HE Hfits.
    destruct (FEsort_fuel_any barsConn (bar_list_is_curve _ HE) Hne)
      as (P & Hloops & HP & _ & Hfit & _).
    exists (to_FE <$> (fmap (M:=list) stored <$> P)).
    assert (FEsort barsConn =
              Returns (Some (to_FE <$> (fmap (M:=list) stored <$> P)))) as Hout.
    { apply FEsort_fuel_fits; [apply Hloops; lia|by apply is_curve_nonempty|].
      by apply Hfit. }
    split; [done|]. unfold curve_section. by rewrite Hout.
Qed.

Lemma FEsort_never_None_witness :
  ∃ out, FEsort [[2; 3]; [5; 6]; [3; 4]; [5; 4]] = Returns (Some out) ∧
    curve_section [[2; 3]; [5; 6]; [3; 4]; [5; 4]] =
      (sortedConn ← np_array_T out; Returns (SortedConn sortedConn, false)).
Proof.
  apply (FEsort_never_None [[2; 3]; [5; 6]; [3; 4]; [5; 4]]); concrete_bars.
Defined.

(** * Further properties of the code *)

(** ** [FEsort]: errors, shape of the result *)

Lemma stitch_nonempty (old new : list (list Z)) (k : bool) :
  Forall (λ c, c ≠ []) old → Forall (λ c, c ≠ []) new →
  Forall (λ c, c ≠ []) (stitch old new k).1.
Proof.
  intros Hold. revert new k.
  induction Hold as [|o old Ho Hold IH]; intros new k Hnew; [done|].
  cbn [stitch]. destruct (absorb o new) as [new'|] eqn:Ea.
  - apply IH. eapply absorb_keeps; [|done..].
    intros n c Hj ??. by eapply join_nonempty.
  - apply IH. apply Forall_app. split; [done|by constructor].
Qed.

Lemma while_keep_searching_nonempty (fuel : nat) (L : list (list Z)) :
  L ≠ [] → Forall (λ c, c ≠ []) L →
  while_keep_searching fuel L = OutOfFuel ∨
  ∃ P, while_keep_searching fuel L = Returns P ∧ Forall (λ c, c ≠ []) P.
Proof.
  revert L. induction fuel as [|fuel IH]; intros L Hne HL; [by left|].
  destruct L as [|first old]; [done|].
  cbn [while_keep_searching]. rewrite pass_stitch by done.
  apply Forall_cons in HL as [Hf Hold].
  assert (Forall (λ c, c ≠ []) [first]) as Hfirst by by constructor.
  pose proof (stitch_nonempty old [first] false Hold Hfirst) as Hst.
  destruct (stitch old [first] false) as [L' k] eqn:Es. cbn [fst] in Hst. cbn.
  destruct k; [|right; by exists L'].
  apply IH; [|done].
  pose proof (proj2 (while_oldConn_length old [first] false) L' true) as Hlen.
  rewrite while_oldConn_stitch, Es in Hlen by (done || by constructor).
  destruct (Hlen eq_refl) as [[Hlen' _] _]. intros ->. cbn in Hlen'. lia.
Qed.

Lemma FEsort_nonempty_cases (barsConn : list (list Z)) :
  barsConn ≠ [] → [] ∉ barsConn →
  (∃ out, FEsort barsConn = Returns (Some out)) ∨
  (FEsort barsConn = Raises OverflowError ∧ ¬ Forall (Forall fits_double) barsConn).
Proof.
  intros Hne Hno.
  assert (Forall (λ c, c ≠ []) barsConn) as HL.
  { apply Forall_forall. by intros c Hc ->. }
  destruct (while_keep_searching_nonempty (S (length barsConn)) barsConn Hne HL)
    as [Hto|(P & HP & HPne)].
  - by apply while_keep_searching_no_timeout in Hto; [|lia].
  - destruct (FEsort_fuel_cases _ _ _ HP HPne) as [Hr|[Hr Hex]]; [left; by eexists|].
    right. split; [done|]. intros Hfit.
    destruct (while_keep_searching_keeps fits_double _ _ _ HL Hfit HP) as [_ HfitP].
    by apply fits_no_overflow in Hex.
Qed.

Lemma while_oldConn_empty_element (old new : list (list Z)) (k : bool) :
  new ≠ [] → Forall (λ c, c ≠ []) new → [] ∈ old →
  while_oldConn old new k = Raises IndexError.
Proof.
  revert new k. induction old as [|o old IH]; intros new k Hne Hnew;
    [by intros ?%elem_of_nil|].
  intros Hin. cbn [while_oldConn].
  destruct (decide (o = [])) as [->|Ho].
  - destruct new as [|n new]; [done|]. done.
  - apply elem_of_cons in Hin as [?|Hin]; [done|].
    pose proof (for_newElement_absorb o [] new Ho Hnew) as Hfor.
    cbn [app length] in Hfor. rewrite Hfor.
    destruct (absorb o new) as [new'|] eqn:Ea; cbn.
    + apply IH; [| |done].
      * apply absorb_bars in Ea as [Hlen _]; [|done..].
        intros ->. destruct new; [done|]. cbn in Hlen. lia.
      * eapply absorb_keeps; [|done..]. intros n c Hj ??. by eapply join_nonempty.
    + apply IH; [by destruct new| |done].
      apply Forall_app. split; [done|by constructor].
Qed.

Lemma pass_empty_element (L : list (list Z)) :
  (2 ≤ length L)%nat → [] ∈ L → pass L = Raises IndexError.
Proof.
  intros Hlen Hin. destruct L as [|first [|o old]]; [cbn in Hlen; lia..|].
  cbn [pass]. destruct (decide (first = [])) as [->|Hf].
  - cbn. by destruct o.
  - apply while_oldConn_empty_element; [done|by constructor|].
    by apply elem_of_cons in Hin as [?|Hin].
Qed.

Lemma for_pointID_stored (curve : list Z) (a a' : ndarray2) (j k : nat) :
  for_pointID curve a (seq (S k) j) = Returns a' → (0 < j)%nat →
  ∀ i x, (k ≤ i ≤ k + j)%nat → curve !! i = Some x → float64 x = Returns (stored x).
Proof.
  revert a k. induction j as [|j IH]; intros a k Hrun Hj i x Hi Hx; [lia|].
  cbn [seq for_pointID] in Hrun. unfold assign_bar in Hrun.
  replace (Z.of_nat (S k) - 1) with (Z.of_nat k) in Hrun by lia.
  rewrite !getitem_nat in Hrun.
  destruct (curve !! k) as [x0|] eqn:Hx0; [|done].
  destruct (curve !! S k) as [y0|] eqn:Hy0; [|done].
  cbn [mbind outcome_bind obind] in Hrun. unfold np_store in Hrun.
  destruct (decide (S k - 1 < length (row0 a))%nat); [|done].
  destruct (float64_cases x0) as [Hfx|Hfx]; rewrite Hfx in Hrun; [|done].
  cbn [mbind outcome_bind obind] in Hrun.
  destruct (decide (S k - 1 < length (row1 a))%nat); [|done].
  destruct (float64_cases y0) as [Hfy|Hfy]; rewrite Hfy in Hrun; [|done].
  cbn [mbind outcome_bind obind] in Hrun.
  destruct (decide (i = k)) as [->|Hik]; [by simplify_eq|].
  destruct (decide (i = S k)) as [->|HiSk]; [by simplify_eq|].
  apply (IH _ (S k) Hrun) with (i := i); [lia|lia|done].
Qed.

Lemma fill_FE_stored (P : list (list Z)) (out : list ndarray2) :
  Forall is_curve P →
  fill_FE P ((λ c, Ndarray2 (replicate (length c - 1) 0) (replicate (length c - 1) 0))
               <$> P) = Returns out →
  Forall (Forall (λ x, float64 x = Returns (stored x))) P.
Proof.
  intros HP. revert out. induction HP as [|c P Hc HP IH]; intros out; [done|].
  rewrite fmap_cons. cbn [fill_FE].
  destruct (for_pointID c _ _) as [a| |] eqn:Hfor; [|done..].
  cbn [mbind outcome_bind obind].
  destruct (fill_FE P _) as [out'| |] eqn:Hfill; [|done..]. intros _.
  constructor; [|by eapply IH].
  apply Forall_forall. intros x [i Hi]%list_elem_of_lookup_1.
  unfold is_curve in Hc. apply lookup_lt_Some in Hi as Hlt.
  apply (for_pointID_stored _ _ _ _ _ Hfor) with (i := i); [lia|lia|done].
Qed.

Lemma FEsort_overflow (E : list (list Z)) :
  bar_list E → E ≠ [] → ¬ Forall (Forall fits_double) E →
  FEsort E = Raises OverflowError.
Proof.
  intros HE Hne Hbig.
  pose proof (bar_list_is_curve E HE) as Hcurves.
  destruct (while_keep_searching_spec (length E) E Hcurves Hne (le_n _))
    as (P & HP & HPc & _ & Hb & _).
  rewrite (all_segments_bar_list E HE) in Hb.
  apply (while_keep_searching_mono _ (S (length E))) in HP; [|lia].
  unfold FEsort, FEsort_fuel. rewrite HP. cbn [mbind outcome_bind obind].
  rewrite alloc_FE_zeros by by apply is_curve_nonempty.
  cbn [mbind outcome_bind obind].
  destruct (fill_FE_zeros P (is_curve_nonempty P HPc)) as [Hr|[-> _]]; [|done].
  exfalso. apply Hbig. apply fill_FE_stored in Hr; [|done].
  apply Forall_forall. intros e He. apply Forall_forall. intros x Hx.
  destruct (in_graph_on_curve P E x Hb HE) as (p & Hp & Hxp).
  { apply list_elem_of_In, in_concat. exists e. by rewrite <- !list_elem_of_In. }
  eapply Forall_forall in Hr; [|exact Hp]. eapply Forall_forall in Hr; [|exact Hxp].
  destruct (decide (Z.abs x < 2 ^ 1024 - 2 ^ 970)) as [|Hno]; [done|].
  apply float64_overflow in Hno. congruence.
Qed.

(** X1.  Which inputs make [FEsort] fail, and how.  The empty list and
    every longer list holding an empty element raise [IndexError]; the
    list made of one empty element alone raises [ValueError], from
    [np.zeros]; on every other list the routine returns a list of arrays
    (never [None]), unless a point id has no float64 value, which is the
    only way to an [OverflowError].  On a list of two-point bars every id
    is stored, so there one such id is enough for the [OverflowError]. *)
Theorem FEsort_error_behaviour (barsConn : list (list Z)) :
  match FEsort barsConn with
  | Returns (Some _) => barsConn ≠ [] ∧ [] ∉ barsConn
  | Returns None => False
  | Raises IndexError => barsConn = [] ∨ ((2 ≤ length barsConn)%nat ∧ [] ∈ barsConn)
  | Raises ValueError => barsConn = [[]]
  | Raises OverflowError =>
      barsConn ≠ [] ∧ ([] ∉ barsConn) ∧ ¬ Forall (Forall fits_double) barsConn
  | OutOfFuel => False
  end ∧
  (bar_list barsConn → barsConn ≠ [] →
   (FEsort barsConn = Raises OverflowError ↔ ¬ Forall (Forall fits_double) barsConn)).
Proof.
  assert (match FEsort barsConn with
          | Returns (Some _) => barsConn ≠ [] ∧ [] ∉ barsConn
          | Returns None => False
          | Raises IndexError =>
              barsConn = [] ∨ ((2 ≤ length barsConn)%nat ∧ [] ∈ barsConn)
          | Raises ValueError => barsConn = [[]]
          | Raises OverflowError =>
              barsConn ≠ [] ∧ ([] ∉ barsConn) ∧ ¬ Forall (Forall fits_double) barsConn
          | OutOfFuel => False
          end) as Hcases.
  { destruct (decide (barsConn = [])) as [->|Hne]; [by left|].
    destruct (decide ([] ∈ barsConn)) as [Hin|Hno].
    - destruct barsConn as [|first [|o old]]; [done| |].
      + apply list_elem_of_singleton in Hin as <-. done.
      + assert (FEsort (first :: o :: old) = Raises IndexError) as ->.
        { unfold FEsort, FEsort_fuel. cbn [while_keep_searching].
          rewrite pass_empty_element; [done|cbn; lia|done]. }
        right. split; [cbn; lia|done].
    - destruct (FEsort_nonempty_cases barsConn Hne Hno) as [(out & ->)|(-> & Hfit)];
        done. }
  split; [done|]. intros HE Hne. split.
  - intros Hov. rewrite Hov in Hcases. by destruct Hcases as (_ & _ & ?).
  - by apply FEsort_overflow.
Qed.

Lemma to_FE_gap_free (p : list Z) :
  is_curve p → gap_free (to_FE p) ∧ row0 (to_FE p) ≠ [].
Proof.
  unfold is_curve, gap_free, to_FE. cbn [row0 row1]. intros Hp.
  destruct p as [|a [|b p]]; [cbn in Hp; lia..|].
  split; [split|done].
  - rewrite length_tail_pred, removelast_firstn_len, length_take. lia.
  - cbn [tail]. change (removelast (a :: b :: p)) with (a :: removelast (b :: p)). done.
Qed.

(** X2.  Shape of the result on a list of two-point bars: there are at
    most as many arrays as bars, every array holds at least one bar, and
    within an array each bar starts at the point where the previous one
    ends. *)
Theorem FEsort_output_chains (E : list (list Z)) (out : list ndarray2) :
  bar_list E → FEsort E = Returns (Some out) →
  (length out ≤ length E)%nat ∧
  Forall (λ a, gap_free a ∧ row0 a ≠ []) out.
Proof.
  intros HE Hout.
  assert (E ≠ []) as Hne by (intros ->; discriminate Hout).
  destruct (FEsort_fuel_any E (bar_list_is_curve E HE) Hne)
    as (P & _ & HP & Hlen & _ & Hcases).
  unfold FEsort in Hout.
  destruct (Hcases (S (length E))) as [Hr|[Hr _]]; [lia| |congruence].
  rewrite Hr in Hout. injection Hout as <-.
  split; [by rewrite !length_fmap|].
  rewrite !Forall_fmap. eapply Forall_impl; [exact HP|].
  intros p Hp. apply to_FE_gap_free. unfold is_curve in *. by rewrite length_fmap.
Qed.

Lemma FEsort_output_chains_witness :
  (length [Ndarray2 [2; 3; 4; 5] [3; 4; 5; 6]]%Z
   ≤ length [[2; 3]; [5; 6]; [3; 4]; [5; 4]]%Z)%nat ∧
  Forall (λ a, gap_free a ∧ row0 a ≠ []) [Ndarray2 [2; 3; 4; 5] [3; 4; 5; 6]].
Proof.
  apply (FEsort_output_chains [[2; 3]; [5; 6]; [3; 4]; [5; 4]]);
    [concrete_bars|reflexivity].
Defined.

Lemma settled_lookup (P : list (list Z)) (i j : nat) (p q : list Z) :
  settled P → (i < j)%nat → P !! i = Some p → P !! j = Some q → join q p = None.
Proof.
  revert i j. induction P as [|c P IH]; intros i j Hs Hij Hi Hj; [done|].
  destruct Hs as [Hc Hs]. destruct j as [|j]; [lia|]. destruct i as [|i].
  - injection Hi as ->. rewrite Forall_forall in Hc. apply Hc.
    by eapply list_elem_of_lookup_2.
  - apply (IH i j); [done|lia|done..].
Qed.

Lemma to_FE_ends (p : list Z) :
  is_curve p → FE_head (to_FE p) = head p ∧ FE_tail (to_FE p) = last p.
Proof.
  unfold is_curve, FE_head, FE_tail, to_FE. cbn [row0 row1]. intros Hp.
  destruct p as [|a [|b p]]; [cbn in Hp; lia..|]. done.
Qed.

(** X3.  The result is a fixed point of the linking rule, whatever the
    degrees: on a list of two-point bars, of point ids that the float64
    arrays hold as they are, no end of a returned array is an end of an
    array returned before it, so no two returned curves could be linked
    any further. *)
Theorem FEsort_output_settled (E : list (list Z)) (out : list ndarray2)
    (i j : nat) (a b : ndarray2) :
  bar_list E → exact_ids E → FEsort E = Returns (Some out) →
  (i < j)%nat → out !! i = Some a → out !! j = Some b → ends_apart b a.
Proof.
  intros HE Hex Hout Hij Hi Hj.
  assert (E ≠ []) as Hne by (intros ->; discriminate Hout).
  destruct (FEsort_spec E HE Hne Hex) as (P & _ & Hout' & HP & _ & _ & _ & Hset).
  rewrite Hout in Hout'. injection Hout' as ->.
  apply list_lookup_fmap_Some in Hi as (p & -> & Hp).
  apply list_lookup_fmap_Some in Hj as (q & -> & Hq).
  pose proof (settled_lookup P i j p q Hset Hij Hp Hq) as Hj.
  apply join_None in Hj.
  rewrite Forall_forall in HP. unfold ends_apart.
  destruct (to_FE_ends p) as [-> ->]; [by eapply HP, list_elem_of_lookup_2|].
  destruct (to_FE_ends q) as [-> ->]; [by eapply HP, list_elem_of_lookup_2|].
  done.
Qed.

Lemma FEsort_output_settled_witness :
  ends_apart (Ndarray2 [1] [4]) (Ndarray2 [3; 1] [1; 2]).
Proof.
  apply (FEsort_output_settled [[1; 2]; [1; 3]; [1; 4]]
           [Ndarray2 [3; 1] [1; 2]; Ndarray2 [1] [4]] 0 1);
    [concrete_bars|concrete_bars|reflexivity|lia|reflexivity|reflexivity].
Defined.

(** X4.  A chain that is already in order is left as it is: for a curve
    whose first point does not come back strictly inside it, and whose
    point ids the float64 arrays hold as they are, sorting its bars, in
    order, returns that one curve. *)
Theorem FEsort_sorted_chain (p : list Z) :
  is_curve p → (∀ h, head p = Some h → h ∉ interior p) → Forall exact_id p →
  FEsort (segments p) = Returns (Some [to_FE p]).
Proof.
  intros Hp Hint Hex.
  pose proof (FEsort_own_output [p]) as H.
  rewrite all_segments_cons in H. unfold all_segments in H. cbn [fmap list_fmap concat] in H.
  rewrite app_nil_r in H.
  apply H; [done|by constructor|done|by constructor|done|by constructor].
Qed.

Lemma FEsort_sorted_chain_witness :
  FEsort (segments [2; 3; 4; 2]) = Returns (Some [to_FE [2; 3; 4; 2]]).
Proof.
  apply (FEsort_sorted_chain [2; 3; 4; 2]); [unfold is_curve; cbn; lia| |].
  - intros h [= <-]. cbn. rewrite !not_elem_of_cons. split_and!; [lia..|].
    apply not_elem_of_nil.
  - repeat constructor; unfold exact_id; lia.
Defined.

(** ** [FEsort_dumb] *)

Lemma find_end_None (flatArray : list Z) :
  find_end flatArray = None ↔ flatArray = [].
Proof.
  induction flatArray as [|x l IH]; [done|]. cbn [find_end].
  destruct (decide (x ∉ l)) as [|Hin]; [done|].
  rewrite IH. split; [|done]. intros ->. destruct Hin. apply not_elem_of_nil.
Qed.

Lemma find_end_elem (flatArray : list Z) (e : Z) :
  find_end flatArray = Some e → e ∈ flatArray.
Proof.
  induction flatArray as [|x l IH]; [done|]. cbn [find_end].
  destruct (decide (x ∉ l)).
  - intros [= ->]. by left.
  - intros H. right. by apply IH.
Qed.

Lemma lift_no_TypeError {A : Type} (m : outcome A) : lift m ≠ Error TypeError.
Proof. by destruct m. Qed.

Lemma next_element_no_TypeError (e : Z) (element : list Z) :
  next_element e element ≠ Error TypeError.
Proof.
  unfold next_element.
  destruct (Py.getitem element 0); cbn; [|done..].
  case_decide; destruct (Py.getitem element 1); cbn; try done.
  by case_decide.
Qed.

Lemma for_element_no_TypeError (e : Z) (todo : list (list Z)) (i : nat) :
  for_element e todo i ≠ Error TypeError.
Proof.
  revert i. induction todo as [|el todo IH]; intros i; [done|].
  cbn [for_element]. case_decide; [|apply IH].
  pose proof (next_element_no_TypeError e el) as Hne.
  destruct (next_element e el); cbn; [done| |done].
  intros [= ->]. by destruct Hne.
Qed.

Lemma while_noFail_no_TypeError (fuel : nat) (barsConn : list (list Z))
    (noFail : bool) (e : Z) (newConn : list (list Z)) :
  while_noFail fuel barsConn noFail e newConn ≠ Error TypeError.
Proof.
  revert barsConn noFail e newConn.
  induction fuel as [|fuel IH]; intros barsConn noFail e newConn; [done|].
  cbn [while_noFail]. destruct (_ && _); [|done].
  pose proof (for_element_no_TypeError e barsConn 0) as Hfor.
  destruct (for_element e barsConn 0) as [[[ne idx]|]|err|]; cbn;
    [|apply IH|intros [= ->]; by destruct Hfor|done].
  pose proof (lift_no_TypeError (Py.getitem ne 1)) as Hl.
  destruct (lift (Py.getitem ne 1)) as [e'|err|]; cbn;
    [|intros [= ->]; by destruct Hl|done].
  unfold list_pop. case_decide; cbn; [apply IH|done].
Qed.

(** X5.  [FEsort_dumb] raises [TypeError] exactly when the flattened input
    has no entry at all (no element, or empty elements only).  As soon as
    there is an entry the end search succeeds, with a point of the input,
    so the fallback written for periodic curves is never taken by one. *)
Theorem FEsort_dumb_TypeError (barsConnIn : list (list Z)) :
  (FEsort_dumb barsConnIn = Error TypeError ↔ concat barsConnIn = []) ∧
  (concat barsConnIn ≠ [] →
   ∃ end_node, find_end (concat barsConnIn) = Some end_node ∧
               end_node ∈ concat barsConnIn).
Proof.
  split.
  - unfold FEsort_dumb. rewrite <- find_end_None.
    destruct (find_end (concat barsConnIn)) as [e|]; cbn [mbind result_bind rbind];
      [|done].
    split; [|done]. intros H. exfalso. revert H.
    pose proof (while_noFail_no_TypeError (2 + length barsConnIn) barsConnIn true e [])
      as Hw.
    destruct (while_noFail _ _ _ _ _) as [[nc []]|err|]; cbn [mbind result_bind rbind];
      try done.
    intros [= ->]. by destruct Hw.
  - intros Hne. destruct (find_end (concat barsConnIn)) as [e|] eqn:He.
    + exists e. split; [done|]. by apply find_end_elem.
    + by apply find_end_None in He.
Qed.

Lemma FEsort_dumb_TypeError_witness :
  ∃ end_node, find_end (concat [[1; 2]; [2; 3]; [3; 1]]) = Some end_node ∧
              end_node ∈ concat [[1; 2]; [2; 3]; [3; 1]].
Proof.
  apply (proj2 (FEsort_dumb_TypeError [[1; 2]; [2; 3]; [3; 1]])). discriminate.
Defined.

Lemma getitem_1 (l : list Z) :
  Py.getitem l 1 = match l !! 1%nat with Some x => Returns x | None => Raises IndexError end.
Proof. exact (getitem_nat l 1). Qed.

Lemma next_element_bar (e a b : Z) :
  e ∈ [a; b] →
  ∃ x, next_element e [a; b] = Ok [e; x] ∧ undirected [e; x] = undirected [a; b].
Proof.
  intros He. unfold next_element. rewrite getitem_0, getitem_1.
  cbn [head lookup list_lookup lift mbind result_bind rbind].
  destruct (decide (e = a)) as [->|Hea]; [by exists b|].
  destruct (decide (e = b)) as [->|Heb].
  - exists a. split; [done|]. apply undirected_swap.
  - exfalso. rewrite !elem_of_cons, elem_of_nil in He. tauto.
Qed.

Lemma for_element_bars (e : Z) (todo : list (list Z)) (i : nat) :
  bar_list todo →
  (for_element e todo i = Ok None ∧ Forall (λ el, e ∉ el) todo) ∨
  ∃ j el x, for_element e todo i = Ok (Some ([e; x], (i + j)%nat)) ∧
            todo !! j = Some el ∧ undirected [e; x] = undirected el.
Proof.
  intros Hbars. revert i.
  induction Hbars as [|el todo Hel Htodo IH]; intros i; [by left|].
  cbn [for_element]. destruct (decide (e ∈ el)) as [Hin|Hout].
  - right. destruct el as [|a [|b [|??]]]; try done.
    destruct (next_element_bar e a b Hin) as (x & -> & Hx).
    exists 0%nat, [a; b], x. by rewrite Nat.add_0_r.
  - destruct (IH (S i)) as [[-> Hall]|(j & el' & x & -> & Hj & Hx)].
    + left. split; [done|by constructor].
    + right. exists (S j), el', x. split; [|done].
      by replace (i + S j)%nat with (S i + j)%nat by lia.
Qed.

Lemma while_noFail_failed (fuel : nat) (barsConn : list (list Z)) (e : Z)
    (newConn : list (list Z)) :
  while_noFail (S fuel) barsConn false e newConn = Ok (newConn, false).
Proof. cbn [while_noFail]. by rewrite andb_false_r. Qed.

Lemma segments_last_snoc (q : list Z) (e x : Z) :
  last q = Some e → segments (q ++ [x]) = segments q ++ [[e; x]].
Proof.
  intros Hq. apply last_Some in Hq as [q' ->]. apply segments_snoc.
Qed.

Lemma while_noFail_chain (fuel : nat) (barsConn : list (list Z)) (e : Z) (q : list Z) :
  bar_list barsConn → (length barsConn < fuel)%nat → last q = Some e →
  while_noFail fuel barsConn true e (segments q) = Ok (segments q, false) ∨
  (∃ newConn, while_noFail fuel barsConn true e (segments q) = Ok (newConn, false)) ∨
  ∃ q', while_noFail fuel barsConn true e (segments q) = Ok (segments q', true) ∧
        same_bars (segments q') (segments q ++ barsConn) ∧ head q' = head q.
Proof.
  revert barsConn e q. induction fuel as [|fuel IH]; intros barsConn e q Hbars Hfuel Hq;
    [lia|].
  cbn [while_noFail]. destruct (decide (barsConn = [])) as [->|Hne].
  { cbn. right; right. exists q. by rewrite app_nil_r. }
  assert (0 < length barsConn)%nat as Hpos by (destruct barsConn; [done|cbn; lia]).
  rewrite bool_decide_eq_true_2 by done. cbn [andb].
  destruct (for_element_bars e barsConn 0 Hbars)
    as [[-> _]|(j & el & x & -> & Hj & Hx)]; cbn [mbind result_bind rbind].
  - right; left. exists (segments q). destruct fuel; [lia|].
    apply while_noFail_failed.
  - rewrite getitem_1. cbn [lookup list_lookup lift Nat.add].
    unfold list_pop. rewrite decide_True by by eapply lookup_lt_Some.
    cbn [mbind result_bind rbind].
    rewrite <- (segments_last_snoc q e x Hq).
    assert (bar_list (delete j barsConn)) as Hbars' by by apply Forall_delete.
    assert (length (delete j barsConn) < fuel)%nat as Hfuel'.
    { rewrite length_delete by by eexists. lia. }
    assert (last (q ++ [x]) = Some x) as Hq' by apply last_snoc.
    destruct (IH (delete j barsConn) x (q ++ [x]) Hbars' Hfuel' Hq')
      as [->|[(nc & ->)|(q' & -> & Hb & Hh)]].
    + right; left. by eexists.
    + right; left. by eexists.
    + right; right. exists q'. split; [done|]. split.
      * etrans; [exact Hb|]. rewrite (segments_last_snoc q e x Hq), <- app_assoc.
        apply same_bars_app; [done|]. unfold same_bars.
        rewrite (delete_Permutation barsConn j el Hj) at 2.
        cbn [app fmap list_fmap]. by rewrite Hx.
      * rewrite Hh. destruct q; [done|]. done.
Qed.

Lemma FEsort_dumb_cases (E : list (list Z)) :
  bar_list E → E ≠ [] →
  FEsort_dumb E = Ok None ∨
  ∃ p, FEsort_dumb E = Ok (Some (segments p)) ∧
       same_bars (segments p) E ∧
       head p = find_end (concat E).
Proof.
  intros HE Hne. unfold FEsort_dumb.
  destruct (find_end (concat E)) as [e|] eqn:He.
  2:{ apply find_end_None in He. destruct E as [|[|a el] E]; try done.
      by apply Forall_cons in HE as [? _]. }
  cbn [mbind result_bind rbind].
  destruct (while_noFail_chain (2 + length E) E e [e] HE) as [H|[(nc & H)|(q' & H & Hb & Hh)]];
    [lia|done|..].
  - cbn [segments] in H. rewrite H. by left.
  - cbn [segments] in H. rewrite H. by left.
  - cbn [segments] in H. rewrite H. cbn [mbind result_bind rbind]. right. by exists q'.
Qed.

(** X6.  On a non-empty list of two-point bars [FEsort_dumb] raises
    nothing.  It returns either [None] or a list that is the bar sequence
    of one curve: that curve starts at the end node found, consecutive
    bars share a point, and its bars are the input bars, each once, up to
    direction. *)
Theorem FEsort_dumb_result (E : list (list Z)) :
  bar_list E → E ≠ [] →
  FEsort_dumb E = Ok None ∨
  ∃ p, FEsort_dumb E = Ok (Some (segments p)) ∧
       same_bars (segments p) E ∧
       head p = find_end (concat E).
Proof. apply FEsort_dumb_cases. Qed.

Lemma FEsort_dumb_result_witness :
  FEsort_dumb [[2; 3]; [5; 6]; [3; 4]; [5; 4]] = Ok None ∨
  ∃ p, FEsort_dumb [[2; 3]; [5; 6]; [3; 4]; [5; 4]] = Ok (Some (segments p)) ∧
       same_bars (segments p) [[2; 3]; [5; 6]; [3; 4]; [5; 4]] ∧
       head p = find_end (concat [[2; 3]; [5; 6]; [3; 4]; [5; 4]]).
Proof.
  apply (FEsort_dumb_result [[2; 3]; [5; 6]; [3; 4]; [5; 4]]); concrete_bars.
Defined.

Lemma FEsort_dumb_Some_curve (E newConn : list (list Z)) :
  bar_list E → FEsort_dumb E = Ok (Some newConn) →
  E ≠ [] ∧ ∃ p, newConn = segments p ∧ same_bars (segments p) E.
Proof.
  intros HE Hsome.
  assert (E ≠ []) as Hne by (intros ->; discriminate Hsome).
  split; [done|].
  destruct (FEsort_dumb_cases E HE Hne) as [Hnone|(p & Hp & Hb & _)].
  - rewrite Hnone in Hsome. discriminate Hsome.
  - rewrite Hp in Hsome. injection Hsome as <-. by exists p.
Qed.

Lemma FEsort_dumb_paths (E newConn : list (list Z)) (u v : Z) :
  bar_list E → FEsort_dumb E = Ok (Some newConn) →
  u ∈ concat E → v ∈ concat E → rtc (adjacent E) u v.
Proof.
  intros HE Hsome Hu Hv.
  destruct (FEsort_dumb_Some_curve E newConn HE Hsome) as (_ & p & _ & Hb).
  assert (same_bars (all_segments [p]) E) as Hb'.
  { by rewrite all_segments_cons, app_nil_r. }
  destruct (in_graph_on_curve [p] E u Hb' HE Hu) as (p1 & ->%list_elem_of_singleton & Hup).
  destruct (in_graph_on_curve [p] E v Hb' HE Hv) as (p2 & ->%list_elem_of_singleton & Hvp).
  apply (path_along_curve E p); [|done..].
  intros a b Hab. by apply (same_bars_elem (segments p)).
Qed.

(** X7.  [FEsort_dumb] hands back a list only when the bars hang together:
    if it returns a list for a list of two-point bars, any two points of
    the input are joined by a path of input bars.  Bars in two or more
    separate pieces therefore give [None]. *)
Theorem FEsort_dumb_connected (E newConn : list (list Z)) (u v : Z) :
  bar_list E → FEsort_dumb E = Ok (Some newConn) →
  u ∈ concat E → v ∈ concat E → rtc (adjacent E) u v.
Proof. apply FEsort_dumb_paths. Qed.

Lemma FEsort_dumb_connected_witness :
  rtc (adjacent [[2; 3]; [5; 6]; [3; 4]; [5; 4]]) 2 6.
Proof.
  apply (FEsort_dumb_connected [[2; 3]; [5; 6]; [3; 4]; [5; 4]]
           [[2; 3]; [3; 4]; [4; 5]; [5; 6]]);
    [concrete_bars|reflexivity|cbn; solve_elem..].
Defined.

(** X8.  Where the older routine succeeds the newer one agrees with it: on
    a valid edge set for which [FEsort_dumb] returns a list, [FEsort]
    returns a single array, and that array holds the same bars as the
    list, provided the float64 array holds the point ids as they are
    ([FEsort_dumb] works on lists of integers throughout). *)
Theorem FEsort_covers_FEsort_dumb (E newConn : list (list Z)) :
  valid_edges E → exact_ids E → FEsort_dumb E = Ok (Some newConn) →
  ∃ a, FEsort E = Returns (Some [a]) ∧ same_bars (columns a) newConn.
Proof.
  intros [Hprop Hnd Hdeg] Hex Hsome.
  pose proof (valid_bar_list E Hprop) as HE.
  destruct (FEsort_dumb_Some_curve E newConn HE Hsome) as (Hne & q & -> & Hq).
  destruct (FEsort_spec E HE Hne Hex) as (P & _ & Hout & HP & HPne & Hb & _ & Hset).
  assert (separate P) as Hsep.
  { apply settled_separate; [done..|]. intros w.
    rewrite (degree_same_bars w _ _ Hb). by apply degree_bound_all. }
  destruct P as [|p1 [|p2 P]]; [done| |].
  - exists (to_FE p1). split; [done|].
    rewrite columns_to_FE. rewrite all_segments_cons, app_nil_r in Hb.
    etrans; [exact Hb|]. by symmetry.
  - exfalso. pose proof HP as HP'.
    apply Forall_cons in HP as [Hp1 HP]. apply Forall_cons in HP as [Hp2 _].
    destruct p1 as [|u p1]; [cbv in Hp1; lia|].
    destruct p2 as [|v p2]; [cbv in Hp2; lia|].
    assert (u ∈ u :: p1) as Hu by by left.
    assert (v ∈ v :: p2) as Hv by by left.
    destruct (same_curve_connected _ E (u :: p1) u u Hb HE HP') as [HuE _];
      [by left|done..|].
    destruct (same_curve_connected _ E (v :: p2) v v Hb HE HP') as [HvE _];
      [by right; left|done..|].
    pose proof (FEsort_dumb_paths E (segments q) u v HE Hsome HuE HvE) as Hpath.
    destruct (connected_same_curve _ E u v Hb HE Hsep Hpath HuE) as (p & Hp & Hup & Hvp).
    assert (p = u :: p1) as ->.
    { apply (separate_same ((u :: p1) :: (v :: p2) :: P) p (u :: p1) u);
        [done|done|by left|done|done]. }
    destruct Hsep as [Hfar _]. apply Forall_cons in Hfar as [Hfar _].
    by apply (Hfar v).
Qed.

Lemma FEsort_covers_FEsort_dumb_witness :
  valid_edges [[2; 3]; [5; 6]; [3; 4]; [5; 4]] ∧
  ∃ a, FEsort [[2; 3]; [5; 6]; [3; 4]; [5; 4]] = Returns (Some [a]) ∧
       same_bars (columns a) [[2; 3]; [3; 4]; [4; 5]; [5; 6]].
Proof.
  split; [concrete_bars|].
  apply (FEsort_covers_FEsort_dumb [[2; 3]; [5; 6]; [3; 4]; [5; 4]]);
    [concrete_bars|concrete_bars|reflexivity].
Defined.

(** ** The class [Curve] *)

Lemma np_getitem_nat {A : Type} (l : list A) (k : nat) :
  np_getitem l (Z.of_nat k) =
  match l !! k with Some x => Ok x | None => Error (Exn IndexError) end.
Proof.
  unfold np_getitem. cbv zeta.
  destruct (decide (Z.of_nat k < 0)); [lia|].
  rewrite decide_False by lia. by rewrite Nat2Z.id.
Qed.

Lemma np_getitem_m1 {A : Type} (l : list A) :
  np_getitem l (-1) = match last l with Some x => Ok x | None => Error (Exn IndexError) end.
Proof.
  unfold np_getitem. cbv zeta. rewrite last_lookup.
  destruct l as [|x l]; [done|]. cbn [length].
  destruct (decide (-1 < 0)) as [_|]; [|lia].
  rewrite decide_False by lia.
  by replace (Z.to_nat (-1 + Z.of_nat (S (length l)))) with (length l) by lia.
Qed.

Lemma np_setitem_nat {A : Type} (l : list A) (k : nat) (x : A) :
  (k < length l)%nat → np_setitem l (Z.of_nat k) x = Ok (<[k := x]> l).
Proof.
  intros Hk. unfold np_setitem. cbv zeta.
  destruct (decide (Z.of_nat k < 0)); [lia|].
  rewrite decide_False by lia. rewrite Nat2Z.id. by rewrite decide_True.
Qed.

Lemma np_setitem_m1 {A : Type} (l : list A) (y x : A) :
  np_setitem (l ++ [y]) (-1) x = Ok (l ++ [x]).
Proof.
  unfold np_setitem. cbv zeta. rewrite length_app. cbn [length].
  destruct (decide (-1 < 0)) as [_|]; [|lia].
  rewrite decide_False by lia.
  replace (Z.to_nat (-1 + Z.of_nat (length l + 1))) with (length l) by lia.
  rewrite decide_True by lia.
  rewrite insert_app_r_alt, Nat.sub_diag by lia. done.
Qed.

Lemma flip_value (r0 r1 : list Z) (rev : bool) :
  flip (BarsView (Ndarray2 r0 r1) rev) =
  Ok (BarsView (Ndarray2 (reverse r0) (reverse r1)) (negb rev)).
Proof.
  unfold flip. cbn [seq for_flip_rows buffer rows_reversed].
  destruct rev; cbn -[reverse]; rewrite length_reverse, decide_True by done;
    cbn -[reverse]; rewrite length_reverse, decide_True by done; done.
Qed.

Lemma flip_read (v : barsView) :
  ∃ v', flip v = Ok v' ∧
    view_read v' = Ndarray2 (reverse (row1 (view_read v))) (reverse (row0 (view_read v))) ∧
    flip v' = Ok v.
Proof.
  destruct v as [[r0 r1] rev].
  exists (BarsView (Ndarray2 (reverse r0) (reverse r1)) (negb rev)).
  split; [apply flip_value|]. split; [by destruct rev|].
  rewrite flip_value, !reverse_involutive. by destruct rev.
Qed.

(** X9.  [Curve.flip] never fails.  Read through [self.barsConn], the
    flipped array has for start points the old end points in reverse order
    and for end points the old start points in reverse order; and flipping
    twice gives back the very same object state. *)
Theorem flip_reverses (v : barsView) :
  ∃ v', flip v = Ok v' ∧
    view_read v' = Ndarray2 (reverse (row1 (view_read v))) (reverse (row0 (view_read v))) ∧
    flip v' = Ok v.
Proof. apply flip_read. Qed.

(** X10.  The flip is done partly in place: the buffer behind
    [self.barsConn] ends up with each of its two rows reversed but the rows
    not swapped, so whoever else holds the array that was given to the
    [Curve] (the section dictionary does) reads neither the old array nor
    the flipped one, unless the array is left unchanged by reversing its
    rows. *)
Theorem flip_shared_buffer (v v' : barsView) :
  flip v = Ok v' →
  buffer v' = Ndarray2 (reverse (row0 (buffer v))) (reverse (row1 (buffer v))) ∧
  view_read (BarsView (buffer v') (rows_reversed v)) =
    Ndarray2 (reverse (row0 (view_read v))) (reverse (row1 (view_read v))).
Proof.
  destruct v as [[r0 r1] rev]. rewrite flip_value. intros [= <-].
  split; [done|]. by destruct rev.
Qed.

Lemma flip_shared_buffer_witness :
  buffer (BarsView (Ndarray2 [3; 2; 1] [4; 3; 2]) true) =
    Ndarray2 (reverse [1; 2; 3]) (reverse [2; 3; 4]) ∧
  view_read (BarsView (Ndarray2 [3; 2; 1] [4; 3; 2]) false) =
    Ndarray2 (reverse [1; 2; 3]) (reverse [2; 3; 4]).
Proof.
  apply (flip_shared_buffer (BarsView (Ndarray2 [1; 2; 3] [2; 3; 4]) false)).
  reflexivity.
Defined.

Lemma to_FE_reverse (p : list Z) :
  to_FE (reverse p) = Ndarray2 (reverse (tail p)) (reverse (removelast p)).
Proof.
  unfold to_FE. destruct p as [|a p]; [done|].
  destruct (exists_last (l:=a :: p)) as (q & z & Hq); [done|].
  f_equal.
  - rewrite reverse_cons, removelast_last. done.
  - rewrite Hq, removelast_last, reverse_snoc. done.
Qed.

Lemma flip_read_to_FE (v v' : barsView) (p : list Z) :
  view_read v = to_FE p → flip v = Ok v' → view_read v' = to_FE (reverse p).
Proof.
  intros Hv Hflip.
  destruct (flip_read v) as (v1 & Hv1 & Hread & _).
  rewrite Hflip in Hv1. injection Hv1 as <-.
  rewrite Hread, Hv, to_FE_reverse. done.
Qed.

(** X11.  Flipping the FE array of a curve gives the FE array of the
    curve with its points in reverse order. *)
Theorem flip_to_FE (v v' : barsView) (p : list Z) :
  view_read v = to_FE p → flip v = Ok v' → view_read v' = to_FE (reverse p).
Proof. apply flip_read_to_FE. Qed.

Lemma flip_to_FE_witness :
  view_read (BarsView (Ndarray2 [3; 2; 1] [4; 3; 2]) true) = to_FE (reverse [1; 2; 3; 4]).
Proof.
  apply (flip_to_FE (BarsView (Ndarray2 [1; 2; 3] [2; 3; 4]) false)); reflexivity.
Defined.

Section CurveClassFacts.

Context {point : Type} (origin : point).

Lemma mapM_result_app {A B : Type} (f : A → result B) (l1 l2 : list A) :
  mapM f (l1 ++ l2) = (ys ← mapM f l1; zs ← mapM f l2; Ok (ys ++ zs)).
Proof.
  induction l1 as [|x l1 IH]; cbn.
  - by destruct (mapM f l2).
  - destruct (f x) as [y|e|]; cbn; [|done..]. rewrite IH.
    destruct (mapM f l1) as [ys|e|]; cbn; [|done..].
    by destruct (mapM f l2).
Qed.

Lemma mapM_result_length {A B : Type} (f : A → result B) (l : list A) (ys : list B) :
  mapM f l = Ok ys → length ys = length l.
Proof.
  revert ys. induction l as [|x l IH]; intros ys; cbn; [by intros [= <-]|].
  destruct (f x) as [y|e|]; cbn; [|done..].
  destruct (mapM f l) as [zs|e|]; cbn; [|done..].
  intros [= <-]. cbn. f_equal. by apply IH.
Qed.

Lemma for_extract_spec (coor : list point) (a : ndarray2) (j k : nat) (done_ : list point) :
  length done_ = k → (k + j = length (row0 a))%nat →
  for_extract coor a (done_ ++ replicate (j + 1) origin) (seq k j) =
  (ys ← mapM (point_at coor) (drop k (row0 a)); Ok (done_ ++ ys ++ [origin])).
Proof.
  revert k done_. induction j as [|j IH]; intros k done_ Hdone Hk.
  - rewrite drop_ge by lia. done.
  - cbn [seq for_extract]. rewrite np_getitem_nat.
    destruct (lookup_lt_is_Some_2 (row0 a) k) as [id Hid]; [lia|].
    rewrite Hid. cbn [mbind result_bind rbind].
    rewrite (drop_S _ _ _ Hid). cbn [mapM].
    destruct (point_at coor id) as [xyz|e|]; cbn [mbind result_bind rbind]; [|done..].
    rewrite np_setitem_nat by (rewrite length_app, length_replicate; lia).
    cbn [mbind result_bind rbind].
    rewrite insert_app_r_alt, Hdone, Nat.sub_diag by lia.
    replace (S j + 1)%nat with (S (j + 1)) by lia. cbn [replicate insert list_insert].
    specialize (IH (S k) (done_ ++ [xyz])).
    rewrite <- app_assoc in IH. cbn [app] in IH. rewrite IH;
      [|rewrite length_app; cbn; lia|lia].
    destruct (mapM (point_at coor) (drop (S k) (row0 a))) as [ys|e|]; cbn; [|done..].
    by rewrite <- app_assoc.
Qed.

Lemma extract_points_reads (coor : list point) (a : ndarray2) :
  length (row0 a) = length (row1 a) →
  match last (row1 a) with
  | Some l => extract_points origin coor a = mapM (point_at coor) (row0 a ++ [l])
  | None => extract_points origin coor a = Error (Exn IndexError)
  end.
Proof.
  intros Hrect. unfold extract_points.
  pose proof (for_extract_spec coor a (length (row0 a)) 0 [] eq_refl eq_refl) as Hfor.
  cbn [app] in Hfor. rewrite Hfor, drop_0. clear Hfor.
  destruct (last (row1 a)) as [l|] eqn:Hl.
  - rewrite mapM_result_app.
    destruct (mapM (point_at coor) (row0 a)) as [ys|e|]; cbn [mbind result_bind rbind];
      [|done..].
    rewrite np_getitem_m1, Hl. cbn [mbind result_bind rbind mapM].
    destruct (point_at coor l) as [xyz|e|]; cbn [mbind result_bind rbind]; [|done..].
    apply np_setitem_m1.
  - apply last_None in Hl. rewrite Hl in Hrect.
    destruct (row0 a); [|done]. cbn. by rewrite Hl.
Qed.

(** X12.  What [Curve.extract_points] reads: on a [2 x n] array with at
    least one bar it looks up, in order, the start point of every bar and
    then the end point of the last bar, point number [id] being column
    [id - 1] of the coordinates with numpy's index rule (so that number 0
    silently reads the last column), and it raises [IndexError] at the
    first number out of range.  On an array without bars it raises
    [IndexError]. *)
Theorem extract_points_spec (coor : list point) (a : ndarray2) :
  length (row0 a) = length (row1 a) →
  match last (row1 a) with
  | Some l => extract_points origin coor a = mapM (point_at coor) (row0 a ++ [l])
  | None => extract_points origin coor a = Error (Exn IndexError)
  end.
Proof. apply extract_points_reads. Qed.

(** X13.  Through the FE format and back: for a curve given by its point
    numbers, the points extracted from its FE array are the coordinates of
    its points, in order; and after a flip they are the coordinates of its
    points in reverse order. *)
Theorem extract_points_to_FE (coor : list point) (p : list Z) (v v' : barsView) :
  is_curve p → view_read v = to_FE p → flip v = Ok v' →
  extract_points origin coor (view_read v) = mapM (point_at coor) p ∧
  extract_points origin coor (view_read v') = mapM (point_at coor) (reverse p).
Proof.
  assert (∀ q, is_curve q →
            extract_points origin coor (to_FE q) = mapM (point_at coor) q) as Hfe.
  { intros q Hq. unfold is_curve in Hq.
    destruct q as [|a q1]; [cbn in Hq; lia|].
    destruct (exists_last (l:=q1)) as (q' & z & ->);
      [intros ->; cbn in Hq; lia|].
    pose proof (extract_points_reads coor (to_FE (a :: q' ++ [z]))) as Hspec.
    unfold to_FE in *. cbn [row0 row1 tail] in *.
    rewrite (app_comm_cons q' [z] a) in *. rewrite removelast_last in *.
    rewrite last_snoc in Hspec. apply Hspec.
    rewrite length_app. cbn. lia. }
  intros Hp Hv Hflip. split.
  - rewrite Hv. by apply Hfe.
  - rewrite (flip_read_to_FE v v' p Hv Hflip). apply Hfe.
    unfold is_curve in *. by rewrite length_reverse.
Qed.

End CurveClassFacts.

Lemma extract_points_spec_witness :
  extract_points 0%nat [10; 20; 30]%nat (Ndarray2 [1; 2] [2; 3]) =
  mapM (point_at [10; 20; 30]%nat) ([1; 2] ++ [3]).
Proof.
  apply (extract_points_spec 0%nat [10; 20; 30]%nat (Ndarray2 [1; 2] [2; 3])).
  reflexivity.
Defined.

Lemma extract_points_to_FE_witness :
  extract_points 0%nat [10; 20; 30]%nat
    (view_read (BarsView (Ndarray2 [1; 2] [2; 3]) false)) =
    mapM (point_at [10; 20; 30]%nat) [1; 2; 3] ∧
  extract_points 0%nat [10; 20; 30]%nat
    (view_read (BarsView (Ndarray2 [2; 1] [3; 2]) true)) =
    mapM (point_at [10; 20; 30]%nat) (reverse [1; 2; 3]).
Proof.
  apply (extract_points_to_FE 0%nat [10; 20; 30]%nat [1; 2; 3]
           (BarsView (Ndarray2 [1; 2] [2; 3]) false)
           (BarsView (Ndarray2 [2; 1] [3; 2]) true));
    [unfold is_curve; cbn; lia|reflexivity|reflexivity].
Defined.

(** ** [merge_surface_sections] *)

Lemma selected_surfaces_cons (sd : gmap string section) (name : string)
    (sel : list string) :
  selected_surfaces sd (name :: sel) =
  match sd !! name with
  | Some (SurfaceSection t q) => (t, q) :: selected_surfaces sd sel
  | _ => selected_surfaces sd sel
  end.
Proof. unfold selected_surfaces. cbn. by destruct (sd !! name) as [[]|]. Qed.

Lemma selected_curves_cons (sd : gmap string section) (name : string)
    (sel : list string) :
  selected_curves sd (name :: sel) =
  match sd !! name with
  | Some (CurveSection _) => name :: selected_curves sd sel
  | _ => selected_curves sd sel
  end.
Proof.
  unfold selected_curves. rewrite filter_cons.
  by destruct (sd !! name) as [[]|].
Qed.

Lemma for_sectionName_started (sd : gmap string section) (nt nq : nat)
    (pre rest : list string) (ct cq : list (list Z)) (out : list string) :
  uniform_sections nt nq sd → Forall (λ name, is_Some (sd !! name)) pre →
  for_sectionName sd (pre ++ rest) (Some (Array2d nt ct)) (Some (Array2d nq cq)) out =
  for_sectionName sd rest
    (Some (Array2d nt (ct ++ concat (cols <$> (selected_surfaces sd pre).*1))))
    (Some (Array2d nq (cq ++ concat (cols <$> (selected_surfaces sd pre).*2))))
    (out ++ (msg_not_surface <$> selected_curves sd pre)).
Proof.
  intros Huni Hpre. revert ct cq out.
  induction Hpre as [|name pre [sec Hsec] Hpre IH]; intros ct cq out.
  { cbn. by rewrite !app_nil_r. }
  cbn [app for_sectionName].
  rewrite selected_surfaces_cons, selected_curves_cons, Hsec.
  destruct sec as [t q|b].
  - destruct (Huni name t q Hsec) as [Ht Hq].
    unfold np_hstack. cbn [nrows cols from_option]. rewrite !decide_True by done.
    rewrite IH. cbn [fmap list_fmap fst snd concat]. by rewrite <- !app_assoc.
  - rewrite IH. cbn [fmap list_fmap]. by rewrite <- app_assoc.
Qed.

Lemma for_sectionName_fresh (sd : gmap string section) (nt nq : nat)
    (pre rest : list string) (out : list string) :
  uniform_sections nt nq sd → Forall (λ name, is_Some (sd !! name)) pre →
  for_sectionName sd (pre ++ rest) None None out =
  for_sectionName sd rest
    (side_by_side (selected_surfaces sd pre).*1)
    (side_by_side (selected_surfaces sd pre).*2)
    (out ++ (msg_not_surface <$> selected_curves sd pre)).
Proof.
  intros Huni Hpre. revert out.
  induction Hpre as [|name pre [sec Hsec] Hpre IH]; intros out.
  { cbn. by rewrite app_nil_r. }
  cbn [app for_sectionName].
  rewrite selected_surfaces_cons, selected_curves_cons, Hsec.
  destruct sec as [[nt' ct] [nq' cq]|b].
  - destruct (Huni name _ _ Hsec) as [Ht Hq]. cbn [nrows] in Ht, Hq. subst nt' nq'.
    rewrite for_sectionName_started by (done || by apply Forall_forall, Forall_forall).
    by cbn.
  - rewrite IH. cbn [fmap list_fmap]. by rewrite <- app_assoc.
Qed.


Lemma merge_all_known (sd : gmap string section) (nt nq : nat)
    (sel : list string) :
  uniform_sections nt nq sd → Forall (λ n, is_Some (sd !! n)) sel →
  merge_surface_sections sd sel =
  (msg_not_surface <$> selected_curves sd sel,
   Ok (side_by_side (selected_surfaces sd sel).*1,
       side_by_side (selected_surfaces sd sel).*2)).
Proof.
  intros Huni Hsel. unfold merge_surface_sections.
  rewrite <- (app_nil_r sel) at 1.
  by rewrite (for_sectionName_fresh sd nt nq) by done.
Qed.


(** ** [getCGNSsections] *)

Lemma for_surf_cons_inv (d : cgns_data) (surf : string) (rest : list string)
    (i : nat) (sd0 sd' : gmap string section) :
  for_surf d (surf :: rest) i sd0 = Ok sd' →
  ∃ tS tE qS qE,
    surfTriaPtr d !! i = Some tS ∧ surfTriaPtr d !! S i = Some tE ∧
    surfQuadsPtr d !! i = Some qS ∧ surfQuadsPtr d !! S i = Some qE ∧
    for_surf d rest (S i)
      (<[surf := SurfaceSection (slice_cols (cgns_triaConn d) (tS - 1) (tE - 1))
                                (slice_cols (cgns_quadsConn d) (qS - 1) (qE - 1))]> sd0)
    = Ok sd'.
Proof.
  cbn [for_surf]. replace (Z.of_nat i + 1) with (Z.of_nat (S i)) by lia.
  rewrite !np_getitem_nat.
  destruct (surfTriaPtr d !! i) as [tS|]; [|done].
  destruct (surfTriaPtr d !! S i) as [tE|]; [|done].
  destruct (surfQuadsPtr d !! i) as [qS|]; [|done].
  destruct (surfQuadsPtr d !! S i) as [qE|]; [|done].
  cbn [mbind result_bind rbind]. intros H. by exists tS, tE, qS, qE.
Qed.

Lemma for_surf_other (d : cgns_data) (names : list string) (i : nat)
    (sd0 sd' : gmap string section) (n : string) :
  for_surf d names i sd0 = Ok sd' → n ∉ names → sd' !! n = sd0 !! n.
Proof.
  revert i sd0. induction names as [|surf rest IH]; intros i sd0.
  { by intros [= <-]. }
  intros (tS & tE & qS & qE & _ & _ & _ & _ & Hrest)%for_surf_cons_inv
         [Hn Hrest']%not_elem_of_cons.
  rewrite (IH _ _ Hrest Hrest'). by apply lookup_insert_ne.
Qed.

Lemma for_surf_uniform (d : cgns_data) (names : list string) (i : nat)
    (sd0 sd' : gmap string section) :
  for_surf d names i sd0 = Ok sd' →
  uniform_sections (nrows (cgns_triaConn d)) (nrows (cgns_quadsConn d)) sd0 →
  uniform_sections (nrows (cgns_triaConn d)) (nrows (cgns_quadsConn d)) sd'.
Proof.
  revert i sd0. induction names as [|surf rest IH]; intros i sd0.
  { by intros [= <-]. }
  intros (tS & tE & qS & qE & _ & _ & _ & _ & Hrest)%for_surf_cons_inv Huni.
  apply (IH _ _ Hrest). intros name t q.
  rewrite lookup_insert_Some. intros [[_ [= <- <-]]|[_ H]]; [done|].
  by apply (Huni name).
Qed.

Lemma for_curve_cons_inv (d : cgns_data) (curve : string) (rest : list string)
    (i : nat) (sd0 sd' : gmap string section) (pr pr' : list string) :
  for_curve d (curve :: rest) i sd0 pr = Ok (sd', pr') →
  ∃ bS bE out sortedConn,
    curveBarsPtr d !! i = Some bS ∧ curveBarsPtr d !! S i = Some bE ∧
    FEsort (py_slice (cols (cgns_barsConn d)) (bS - 1) (bE - 1)) = Returns (Some out) ∧
    np_array_T out = Returns sortedConn ∧
    for_curve d rest (S i) (<[curve := CurveSection (SortedConn sortedConn)]> sd0) pr
    = Ok (sd', pr').
Proof.
  cbn [for_curve]. replace (Z.of_nat i + 1) with (Z.of_nat (S i)) by lia.
  rewrite !np_getitem_nat.
  destruct (curveBarsPtr d !! i) as [bS|]; [|done].
  destruct (curveBarsPtr d !! S i) as [bE|]; [|done].
  cbn [mbind result_bind rbind].
  destruct (curve_section _) as [[entry warned]|e|] eqn:Ecs; cbn; [|done..].
  destruct (curve_section_sorted _ _ _ Ecs) as (-> & out & a & Hout & Ha & ->).
  intros H. by exists bS, bE, out, a.
Qed.

Lemma for_curve_other (d : cgns_data) (names : list string) (i : nat)
    (sd0 sd' : gmap string section) (pr pr' : list string) (n : string) :
  for_curve d names i sd0 pr = Ok (sd', pr') → n ∉ names → sd' !! n = sd0 !! n.
Proof.
  revert i sd0. induction names as [|curve rest IH]; intros i sd0.
  { by intros [= <- <-]. }
  intros (bS & bE & out & a & _ & _ & _ & _ & Hrest)%for_curve_cons_inv
         [Hn Hrest']%not_elem_of_cons.
  rewrite (IH _ _ Hrest Hrest'). by apply lookup_insert_ne.
Qed.

Lemma for_curve_uniform (d : cgns_data) (names : list string) (i : nat)
    (sd0 sd' : gmap string section) (pr pr' : list string) (nt nq : nat) :
  for_curve d names i sd0 pr = Ok (sd', pr') →
  uniform_sections nt nq sd0 → uniform_sections nt nq sd'.
Proof.
  revert i sd0. induction names as [|curve rest IH]; intros i sd0.
  { by intros [= <- <-]. }
  intros (bS & bE & out & a & _ & _ & _ & _ & Hrest)%for_curve_cons_inv Huni.
  apply (IH _ _ Hrest). intros name t q.
  rewrite lookup_insert_Some. intros [[_ [=]]|[_ H]]. by apply (Huni name).
Qed.

Lemma drop_lookup2 {A : Type} (l : list A) (i : nat) (a b : A) :
  l !! i = Some a → l !! S i = Some b → ∃ more, drop i l = a :: b :: more.
Proof.
  intros Ha Hb. exists (drop (S (S i)) l).
  by rewrite (drop_S l a i Ha), (drop_S l b (S i) Hb).
Qed.

Lemma for_surf_selected (d : cgns_data) (names : list string) (i : nat)
    (sd0 sd' sd'' : gmap string section) :
  for_surf d names i sd0 = Ok sd' → NoDup names →
  (∀ n, n ∈ names → sd'' !! n = sd' !! n) →
  length (drop i (surfTriaPtr d)) = S (length names) →
  length (drop i (surfQuadsPtr d)) = S (length names) →
  (selected_surfaces sd'' names).*1 =
    Array2d (nrows (cgns_triaConn d)) <$>
      slices (cols (cgns_triaConn d)) (drop i (surfTriaPtr d)) ∧
  (selected_surfaces sd'' names).*2 =
    Array2d (nrows (cgns_quadsConn d)) <$>
      slices (cols (cgns_quadsConn d)) (drop i (surfQuadsPtr d)).
Proof.
  revert i sd0. induction names as [|surf rest IH]; intros i sd0.
  { intros _ _ _ HT HQ. cbn in HT, HQ.
    destruct (drop i (surfTriaPtr d)) as [|a [|??]]; try done.
    destruct (drop i (surfQuadsPtr d)) as [|b [|??]]; done. }
  intros (tS & tE & qS & qE & HtS & HtE & HqS & HqE & Hrest)%for_surf_cons_inv
         [Hfresh Hnd]%NoDup_cons Hagree HT HQ.
  destruct (drop_lookup2 _ _ _ _ HtS HtE) as [moreT HdT].
  destruct (drop_lookup2 _ _ _ _ HqS HqE) as [moreQ HdQ].
  assert (drop (S i) (surfTriaPtr d) = tE :: moreT) as HdT'.
  { replace (S i) with (i + 1)%nat by lia. by rewrite <- drop_drop, HdT. }
  assert (drop (S i) (surfQuadsPtr d) = qE :: moreQ) as HdQ'.
  { replace (S i) with (i + 1)%nat by lia. by rewrite <- drop_drop, HdQ. }
  rewrite selected_surfaces_cons, Hagree by by left.
  rewrite (for_surf_other _ _ _ _ _ surf Hrest Hfresh), lookup_insert_eq.
  destruct (IH (S i) _ Hrest Hnd) as [IHT IHQ].
  { intros n Hn. apply Hagree. by right. }
  { rewrite HdT'. rewrite HdT in HT. cbn in *. lia. }
  { rewrite HdQ'. rewrite HdQ in HQ. cbn in *. lia. }
  rewrite HdT, HdQ. cbn [fmap list_fmap fst snd slices].
  rewrite IHT, IHQ, HdT', HdQ'. done.
Qed.




Lemma slice_index_ptr (n : nat) (a : Z) :
  1 ≤ a ≤ Z.of_nat n + 1 → slice_index n (a - 1) = Z.to_nat (a - 1).
Proof.
  intros Ha. unfold slice_index. rewrite decide_False by lia. lia.
Qed.

Lemma slices_cons2 {A : Type} (l : list A) (a b : Z) (rest : list Z) :
  slices l (a :: b :: rest) = py_slice l (a - 1) (b - 1) :: slices l (b :: rest).
Proof. done. Qed.

Lemma slices_concat {A : Type} (l : list A) (ptr : list Z) (a z : Z) :
  head ptr = Some a → last ptr = Some z → 1 ≤ a → z ≤ Z.of_nat (length l) + 1 →
  (∀ i x y, ptr !! i = Some x → ptr !! S i = Some y → x ≤ y) →
  a ≤ z ∧
  concat (slices l ptr) = take (Z.to_nat (z - a)) (drop (Z.to_nat (a - 1)) l).
Proof.
  revert a. induction ptr as [|x ptr IH]; intros a Hhead Hlast Ha Hz Hsorted; [done|].
  injection Hhead as ->. destruct ptr as [|b ptr].
  { injection Hlast as ->. split; [lia|]. cbn. by rewrite Z.sub_diag. }
  assert (a ≤ b) as Hab by by apply (Hsorted 0%nat).
  destruct (IH b) as [Hbz IHc]; [done|done|lia|done| |].
  { intros i x y Hx Hy. by apply (Hsorted (S i)). }
  split; [lia|].
  rewrite slices_cons2. cbn [concat]. rewrite IHc. unfold py_slice.
  rewrite !slice_index_ptr by lia.
  replace (Z.to_nat (b - 1) - Z.to_nat (a - 1))%nat with (Z.to_nat (b - a)) by lia.
  replace (Z.to_nat (b - 1)) with (Z.to_nat (a - 1) + Z.to_nat (b - a))%nat by lia.
  rewrite <- drop_drop, take_take_drop. f_equal. lia.
Qed.

Lemma slices_all {A : Type} (l : list A) (ptr : list Z) (k : nat) :
  ptrs_ok ptr (length l) k → concat (slices l ptr) = l.
Proof.
  intros (Hlen & Hfirst & Hlast & Hsorted).
  assert (last ptr = Some (Z.of_nat (length l) + 1)) as Hlast'.
  { rewrite last_lookup, Hlen. done. }
  destruct (slices_concat l ptr 1 (Z.of_nat (length l) + 1)) as [_ ->];
    [by rewrite head_lookup|done|lia|lia|done|].
  replace (Z.to_nat (1 - 1)) with 0%nat by lia. rewrite drop_0.
  rewrite take_ge; [done|lia].
Qed.

Lemma for_surf_dom (d : cgns_data) (names : list string) (i : nat)
    (sd0 sd' : gmap string section) (n : string) :
  for_surf d names i sd0 = Ok sd' → n ∈ names →
  ∃ t q, sd' !! n = Some (SurfaceSection t q).
Proof.
  revert i sd0. induction names as [|surf rest IH]; intros i sd0;
    [by intros _ ?%elem_of_nil|].
  intros (tS & tE & qS & qE & _ & _ & _ & _ & Hrest)%for_surf_cons_inv Hn.
  destruct (decide (n ∈ rest)) as [Hin|Hout]; [by eapply IH|].
  apply elem_of_cons in Hn as [->|?]; [|done].
  rewrite (for_surf_other _ _ _ _ _ surf Hrest Hout), lookup_insert_eq. by eexists _, _.
Qed.

Lemma selected_curves_none (sd : gmap string section) (sel : list string) :
  Forall (λ n, ∃ t q, sd !! n = Some (SurfaceSection t q)) sel →
  selected_curves sd sel = [].
Proof.
  induction 1 as [|n sel (t & q & Hn) Hsel IH]; [done|].
  by rewrite selected_curves_cons, Hn.
Qed.

(** X16.  Splitting and merging again: when the surface names are
    distinct and none of them is also a curve name, and the pointers of
    the surfaces start at 1, do not decrease and end one past the last
    column, then merging all surface sections of the dictionary built by
    [getCGNSsections], in the order of the file, gives back the triangle
    and quadrilateral connectivities of the file, and prints nothing. *)
Theorem split_then_merge (d : cgns_data) (sd : gmap string section)
    (printed : list string) :
  getCGNSsections d = Ok (sd, printed) →
  NoDup (surfNames d) → surfNames d ≠ [] →
  (∀ n, n ∈ surfNames d → n ∉ curveNames d) →
  ptrs_ok (surfTriaPtr d) (length (cols (cgns_triaConn d))) (length (surfNames d)) →
  ptrs_ok (surfQuadsPtr d) (length (cols (cgns_quadsConn d))) (length (surfNames d)) →
  merge_surface_sections sd (surfNames d) =
  ([], Ok (Some (cgns_triaConn d), Some (cgns_quadsConn d))).
Proof.
  intros Hget Hnd Hne Hdisj HT HQ. unfold getCGNSsections in Hget.
  destruct (for_surf d (surfNames d) 0 ∅) as [sd1|e|] eqn:Hsurf; [|done..].
  cbn [mbind result_bind rbind] in Hget.
  assert (uniform_sections (nrows (cgns_triaConn d)) (nrows (cgns_quadsConn d)) sd)
    as Huni.
  { eapply for_curve_uniform; [exact Hget|].
    eapply for_surf_uniform; [exact Hsurf|]. intros name t q. by rewrite lookup_empty. }
  assert (∀ n, n ∈ surfNames d → sd !! n = sd1 !! n) as Hagree.
  { intros n Hn. eapply for_curve_other; [exact Hget|]. by apply Hdisj. }
  assert (Forall (λ n, ∃ t q, sd !! n = Some (SurfaceSection t q)) (surfNames d))
    as Hdom.
  { apply Forall_forall. intros n Hn. rewrite (Hagree n Hn).
    by eapply for_surf_dom. }
  rewrite (merge_all_known sd _ _ _ Huni).
  2:{ eapply Forall_impl; [exact Hdom|]. intros n (t & q & ->). by eexists. }
  rewrite (selected_curves_none sd _ Hdom).
  destruct (for_surf_selected d (surfNames d) 0 ∅ sd1 sd Hsurf Hnd Hagree) as [-> ->].
  { rewrite drop_0. by destruct HT as [-> _]. }
  { rewrite drop_0. by destruct HQ as [-> _]. }
  rewrite !drop_0.
  assert (∀ (a : array2d) ptr, ptrs_ok ptr (length (cols a)) (length (surfNames d)) →
            side_by_side (Array2d (nrows a) <$> slices (cols a) ptr) = Some a) as Hside.
  { intros [nr cs] ptr Hok. cbn [nrows cols] in *.
    pose proof (slices_all cs ptr _ Hok) as Hall.
    destruct Hok as (Hlen & _).
    assert (∀ xs : list (list (list Z)), cols <$> (Array2d nr <$> xs) = xs) as Hcols.
    { intros xs. rewrite <- list_fmap_compose. apply list_fmap_id. }
    destruct (slices cs ptr) as [|s0 ss] eqn:Es.
    - destruct ptr as [|x [|y ptr]]; [done| |done].
      destruct (surfNames d); [done|]. cbn in Hlen. lia.
    - cbn [fmap list_fmap side_by_side nrows]. f_equal. f_equal.
      change (concat (cols <$> (Array2d nr <$> (s0 :: ss))) = cs).
      by rewrite Hcols. }
  by rewrite !Hside.
Qed.

Lemma split_then_merge_witness :
  match getCGNSsections example_cgns with
  | Ok (sd, _) =>
      merge_surface_sections sd (surfNames example_cgns) =
      ([], Ok (Some (cgns_triaConn example_cgns), Some (cgns_quadsConn example_cgns)))
  | _ => False
  end.
Proof.
  destruct (getCGNSsections example_cgns) as [[sd printed]|e|] eqn:Hget;
    [|vm_compute in Hget; discriminate Hget..].
  apply (split_then_merge example_cgns sd printed Hget).
  - apply (bool_decide_unpack _). vm_compute. exact I.
  - discriminate.
  - intros n Hn Hc. cbn in Hn, Hc. rewrite !elem_of_cons, elem_of_nil in Hn, Hc.
    destruct Hn as [->|[->|[]]]; destruct Hc as [?|[?|[]]]; discriminate.
  - split_and!; [done..|]. intros [|[|[|i]]] x y; cbn; intros [= <-] [= <-]; lia.
  - split_and!; [done..|]. intros [|[|[|i]]] x y; cbn; intros [= <-] [= <-]; lia.
Defined.




(** ** [initialize_curves] *)

(** X18.  [initialize_curves] makes a [Curve] of exactly the curve
    sections: a name is in [TSurfComponent.Curves] if and only if the
    section dictionary holds a curve section under it, and the object then
    carries that section's connectivity and the component's coordinates;
    surface sections are passed over. *)
Theorem initialize_curves_lookup {C : Type} (coor : C) (sd : gmap string section)
    (name : string) :
  initialize_curves coor sd !! name =
  match sd !! name with
  | Some (CurveSection barsConn) => Some (CurveObj coor barsConn)
  | _ => None
  end.
Proof.
  unfold initialize_curves.
  apply (map_fold_weak_ind (λ r m, r !! name =
           match m !! name with
           | Some (CurveSection barsConn) => Some (CurveObj coor barsConn)
           | _ => None
           end)).
  - by rewrite !lookup_empty.
  - intros i sec m r Hi IH.
    destruct (decide (i = name)) as [->|Hne].
    + rewrite lookup_insert_eq. destruct sec as [t q|b].
      * by rewrite IH, Hi.
      * by rewrite lookup_insert_eq.
    + rewrite (lookup_insert_ne m) by done.
      destruct sec as [t q|b]; [done|]. by rewrite lookup_insert_ne.
Qed.
